(** * Tile animation driver of the tilemap scene

    A shallow embedding of [TilemapScene] and [AnimatedTile]
    (scenes/TilemapScene.ts) and the properties of the tile animation
    driver.

    Modelling conventions.
    - In [Number], [AnimatedTile] and [TilemapScene] a JavaScript [number]
      that the driver computes with is a whole number of milliseconds or
      a tile id: it is a [Z], and the values that arithmetic can produce
      besides are [NaN] and the two infinities.  Negative zero is
      identified with zero (both name the same array slot).  What is
      proved there is proved of times that are whole milliseconds, which
      doubles add and divide without rounding below 2^53.
    - [Binary64] and [AnimatedTile64] are the same arithmetic and the same
      [update] on doubles, with the rounding of every operation: the
      engine passes fractional deltas, and there the sums round.
    - Every layer of [tilemap.layers] has been created by the scene, so
      that [layer.tilemapLayer] is an object with a [type]; a map with a
      layer that the scene never created is outside the model.
    - A thrown exception ends the running call and leaves every mutation
      made so far in place: a computation returns a completion together
      with the final state.
    - The tile grid belongs to the tilemap.  An [AnimatedTile] refers to
      its tile by position (layer, row, column) in that grid, and writes
      [tile.index] through that position.
    - The engine's player sprite, camera and physics are not modelled. *)

From stdpp Require Import gmap strings list sorting.
From Stdlib Require Import ZArith Lia SpecFloat.

Local Open Scope Z_scope.

(** ** JavaScript numbers *)

Module Number.

Inductive number : Type :=
  | Num (z : Z)
  | NaN
  | Infinity (negative : bool).

(** [a + b] *)
Definition add (a b : number) : number :=
  match a, b with
  | Num x, Num y => Num (x + y)
  | NaN, _ | _, NaN => NaN
  | Infinity s, Infinity t => if Bool.eqb s t then Infinity s else NaN
  | Infinity s, Num _ | Num _, Infinity s => Infinity s
  end.

(** [a % b]: the remainder has the sign of the dividend. *)
Definition rem (a b : number) : number :=
  match a, b with
  | Num x, Num y => if y =? 0 then NaN else Num (Z.rem x y)
  | Num x, Infinity _ => Num x
  | _, _ => NaN
  end.

(** [Math.floor(a / b)] *)
Definition floor_div (a b : number) : number :=
  match a, b with
  | Num x, Num y =>
      if y =? 0 then
        if x =? 0 then NaN else Infinity (x <? 0)
      else Num (x / y)
  | Num _, Infinity _ => Num 0
  | Infinity s, Num y => Infinity (xorb s (y <? 0))
  | _, _ => NaN
  end.

(** [arr[n]]: [undefined] unless [n] is an index of the array. *)
Definition array_get {A : Type} (arr : list A) (n : number) : option A :=
  match n with
  | Num z => if 0 <=? z then arr !! Z.to_nat z else None
  | _ => None
  end.

End Number.

Import Number.

(** ** Completions and the state monad of the scene *)

Inductive error : Type :=
  | TypeError.

Inductive completion (A : Type) : Type :=
  | Normal (a : A)
  | Throw (e : error).

Arguments Normal {A} a.
Arguments Throw {A} e.

(** Reading a property of [undefined] throws a [TypeError]. *)
Definition defined {A : Type} (o : option A) : completion A :=
  match o with
  | Some a => Normal a
  | None => Throw TypeError
  end.

Definition M (S A : Type) : Type := S -> completion A * S.

Definition ret {S A : Type} (a : A) : M S A := fun s => (Normal a, s).

Definition bind {S A B : Type} (m : M S A) (k : A -> M S B) : M S B :=
  fun s =>
    match m s with
    | (Normal a, s') => k a s'
    | (Throw e, s') => (Throw e, s')
    end.

Definition lift {S A : Type} (c : completion A) : M S A := fun s => (c, s).

Definition gets {S A : Type} (f : S -> A) : M S A := fun s => (Normal (f s), s).

Definition modify {S : Type} (f : S -> S) : M S unit := fun s => (Normal tt, f s).

Declare Scope js_scope.
Delimit Scope js_scope with js.

Notation "x <- m ;; k" := (bind m (fun x => k))
  (at level 100, m at next level, right associativity) : js_scope.
Notation "m ;; k" := (bind m (fun _ => k))
  (at level 100, right associativity) : js_scope.

Local Open Scope js_scope.

(** [xs.forEach((x, i) => f x i)], the indices counted from [i]. *)
Fixpoint forEach_from {S A : Type} (i : nat) (xs : list A)
    (f : A -> nat -> M S unit) : M S unit :=
  match xs with
  | [] => ret tt
  | x :: xs' => f x i ;; forEach_from (Datatypes.S i) xs' f
  end.

Definition forEach {S A : Type} (xs : list A) (f : A -> nat -> M S unit)
  : M S unit :=
  forEach_from 0 xs f.

(** The state a computation ends in, whatever its completion. *)
Definition exec {S A : Type} (m : M S A) (s : S) : S := snd (m s).

(** ** Data model *)

(** One step of a [TileAnimationData]. *)
Record Frame : Type := {
  duration : Z;
  tileid : Z
}.

Abbreviation TileAnimationData := (list Frame).

(** A value of [TilesetTileData]: [animation] is optional. *)
Record TilesetTile : Type := {
  animation : option TileAnimationData
}.

(** The part of [Phaser.Tilemaps.Tileset] the scene reads.  The keys of
    [tileData] are local tile ids; a key stands for its decimal string. *)
Record Tileset : Type := {
  firstgid : Z;
  tileData : gmap N TilesetTile
}.

(** The part of [Phaser.Tilemaps.Tile] the driver reads and writes. *)
Record Tile : Type := {
  index : Z
}.

(** A [Phaser.Tilemaps.LayerData]: [tilemapLayer_type] is
    [layer.tilemapLayer.type]. *)
Record LayerData : Type := {
  tilemapLayer_type : string;
  data : list (list Tile)
}.

(** The position of a placed tile in [tilemap.layers]. *)
Record TileRef : Type := {
  ref_layer : nat;
  ref_row : nat;
  ref_col : nat
}.

Definition get_tile (ls : list LayerData) (t : TileRef) : option Tile :=
  match ls !! ref_layer t with
  | Some layer =>
      match data layer !! ref_row t with
      | Some tileRow => tileRow !! ref_col t
      | None => None
      end
  | None => None
  end.

Definition set_data (layer : LayerData) (d : list (list Tile)) : LayerData :=
  {| tilemapLayer_type := tilemapLayer_type layer; data := d |}.

(** [tile.index = v] for the tile at position [t]. *)
Definition set_tile_index (t : TileRef) (v : Z) (ls : list LayerData)
  : list LayerData :=
  alter
    (fun layer =>
       set_data layer
         (alter (alter (fun _ => {| index := v |}) (ref_col t))
                (ref_row t) (data layer)))
    (ref_layer t) ls.

(** ** AnimatedTile *)

Module AnimatedTile.

Record t : Type := {
  tile : TileRef;
  tileAnimationData : TileAnimationData;
  firstgid : Z;
  elapsedTime : number;
  animationDuration : Z
}.

Definition set_elapsedTime (this : t) (e : number) : t :=
  {| tile := tile this;
     tileAnimationData := tileAnimationData this;
     firstgid := firstgid this;
     elapsedTime := e;
     animationDuration := animationDuration this |}.

(** [new AnimatedTile(tile, tileAnimationData, firstgid)].  The argument
    is [undefined] when the tileset entry has no [animation]. *)
Definition new (tile0 : TileRef) (tileAnimationData0 : option TileAnimationData)
    (firstgid0 : Z) : completion t :=
  match tileAnimationData0 with
  | None => Throw TypeError
  | Some frames =>
      match defined (frames !! 0%nat) with
      | Throw e => Throw e
      | Normal frame0 =>
          Normal {| tile := tile0;
                    tileAnimationData := frames;
                    firstgid := firstgid0;
                    elapsedTime := Num 0;
                    animationDuration :=
                      duration frame0 * Z.of_nat (length frames) |}
      end
  end.

(** The state [update] runs in: the receiver and the tile grid. *)
Definition Env : Type := (t * list LayerData)%type.

Definition this_ : M Env t := gets fst.

Definition update (delta : Z) : M Env unit :=
  modify (fun '(this, ls) =>
    (set_elapsedTime this (Number.add (elapsedTime this) (Num delta)), ls)) ;;
  modify (fun '(this, ls) =>
    (set_elapsedTime this
       (Number.rem (elapsedTime this) (Num (animationDuration this))), ls)) ;;
  this <- this_ ;;
  frame0 <- lift (defined (tileAnimationData this !! 0%nat)) ;;
  let animatonFrameIndex :=
    Number.floor_div (elapsedTime this) (Num (duration frame0)) in
  frame <- lift (defined
             (array_get (tileAnimationData this) animatonFrameIndex)) ;;
  modify (fun '(this, ls) =>
    (this, set_tile_index (tile this) (tileid frame + firstgid this) ls)).

(** [update] called with each delta in turn; a throw ends the run. *)
Definition updates (deltas : list Z) : M Env unit :=
  forEach deltas (fun delta _ => update delta).

(** The objects a running scene can hold: built by [new], then updated
    with non-negative deltas (the state an [update] ends in counts, whether
    it returned or threw). *)
Inductive reachable : t -> Prop :=
  | reachable_new tile0 frames gid a :
      new tile0 frames gid = Normal a -> reachable a
  | reachable_update a delta ls :
      reachable a -> 0 <= delta ->
      reachable (fst (exec (update delta) (a, ls))).

(** [D] is the duration of the first frame and [animationDuration] is [D]
    times the frame count. *)
Definition cycle_of (a : t) (D : Z) : Prop :=
  exists frame0,
    tileAnimationData a !! 0%nat = Some frame0 /\
    duration frame0 = D /\
    animationDuration a = D * Z.of_nat (length (tileAnimationData a)).

(** The elapsed time is a number of milliseconds within one cycle. *)
Definition in_cycle (a : t) : Prop :=
  exists e, elapsedTime a = Num e /\ 0 <= e < animationDuration a.

(** The frame that the elapsed time [e] selects when frames last [D]. *)
Definition frame_at (a : t) (D e : Z) : option Frame :=
  array_get (tileAnimationData a) (Number.floor_div (Num e) (Num D)).

(** The grid shows, at the tile of [a], the frame that the elapsed time of
    [a] selects. *)
Definition displays (ls : list LayerData) (a : t) : Prop :=
  exists D e frame,
    cycle_of a D /\ elapsedTime a = Num e /\
    frame_at a D e = Some frame /\
    get_tile ls (tile a) = Some {| index := tileid frame + firstgid a |}.

End AnimatedTile.

(** ** TilemapScene *)

Module TilemapScene.

(** The scene's own field [animatedTiles] and the layers of the tilemap it
    displays. *)
Record t : Type := {
  animatedTiles : list AnimatedTile.t;
  layers : list LayerData
}.

Definition set_animatedTiles (this : t) (ats : list AnimatedTile.t) : t :=
  {| animatedTiles := ats; layers := layers this |}.

(** [this.animatedTiles.push(a)] *)
Definition push (a : AnimatedTile.t) : M t unit :=
  modify (fun this => set_animatedTiles this (animatedTiles this ++ [a])).

(** [init(data)] *)
Definition init : M t unit :=
  modify (fun this => set_animatedTiles this []).

(** The keys a [for (let tileid in tileData)] loop visits: integer keys
    come in ascending order. *)
Definition own_keys (tileData0 : gmap N TilesetTile) : list N :=
  merge_sort N.le (map fst (map_to_list tileData0)).

(** [parseInt(tileid, 10)] of the key [tileid]. *)
Definition parseInt (tileid0 : N) : Z := Z.of_N tileid0.

Definition is_static (layer : LayerData) : bool :=
  String.eqb (tilemapLayer_type layer) "StaticTilemapLayer".

(** The animated-tile loop of [create(data)]. *)
Definition create (tileset : Tileset) : M t unit :=
  forEach (own_keys (tileData tileset)) (fun tileid0 _ =>
    tilemap_layers <- gets layers ;;
    forEach tilemap_layers (fun layer l =>
      if is_static layer then ret tt
      else
        forEach (data layer) (fun tileRow r =>
          forEach tileRow (fun tile0 c =>
            if index tile0 - firstgid tileset =? parseInt tileid0 then
              entry <- lift (defined (tileData tileset !! tileid0)) ;;
              a <- lift (AnimatedTile.new
                           {| ref_layer := l; ref_row := r; ref_col := c |}
                           (animation entry) (firstgid tileset)) ;;
              push a
            else ret tt)))).

(** The callbacks of the loops of [create], innermost first. *)
Definition visit_tile (tileset : Tileset) (tileid0 : N) (l r : nat)
    (tile0 : Tile) (c : nat) : M t unit :=
  if index tile0 - firstgid tileset =? parseInt tileid0 then
    entry <- lift (defined (tileData tileset !! tileid0)) ;;
    a <- lift (AnimatedTile.new
                 {| ref_layer := l; ref_row := r; ref_col := c |}
                 (animation entry) (firstgid tileset)) ;;
    push a
  else ret tt.

Definition visit_row (tileset : Tileset) (tileid0 : N) (l : nat)
    (tileRow : list Tile) (r : nat) : M t unit :=
  forEach tileRow (visit_tile tileset tileid0 l r).

Definition visit_layer (tileset : Tileset) (tileid0 : N)
    (layer : LayerData) (l : nat) : M t unit :=
  if is_static layer then ret tt
  else forEach (data layer) (visit_row tileset tileid0 l).

Definition visit_key (tileset : Tileset) (tileid0 : N) : M t unit :=
  tilemap_layers <- gets layers ;;
  forEach tilemap_layers (visit_layer tileset tileid0).

(** [tile.update(delta)] for the element [i] of [this.animatedTiles]. *)
Definition update_tile (i : nat) (delta : Z) : M t unit :=
  fun this =>
    match animatedTiles this !! i with
    | None => (Normal tt, this)
    | Some a =>
        let '(c, (a', ls)) := AnimatedTile.update delta (a, layers this) in
        (c, {| animatedTiles := <[i:=a']> (animatedTiles this);
               layers := ls |})
    end.

(** [update(time, delta)] *)
Definition update (time delta : Z) : M t unit :=
  ats <- gets animatedTiles ;;
  forEach ats (fun _ i => update_tile i delta).

(** The frames of a running scene: one [update] per frame, each from the
    state the previous one ended in. *)
Fixpoint run_frames (deltas : list Z) (this : t) : t :=
  match deltas with
  | [] => this
  | delta :: deltas' => run_frames deltas' (exec (update 0 delta) this)
  end.

(** The placed tile at [r] lies in a layer that is not static and shows
    the local tile [tileid0]. *)
Definition matches (tileset : Tileset) (ls : list LayerData)
    (tileid0 : N) (r : TileRef) : Prop :=
  exists layer tileRow tile0,
    ls !! ref_layer r = Some layer /\
    is_static layer = false /\
    data layer !! ref_row r = Some tileRow /\
    tileRow !! ref_col r = Some tile0 /\
    index tile0 - firstgid tileset = parseInt tileid0.

(** [a] is the animated tile that the scan builds for a placed tile that
    matches a key of [tileData] whose entry carries an animation. *)
Definition scanned (tileset : Tileset) (ls : list LayerData)
    (a : AnimatedTile.t) : Prop :=
  exists tileid0 entry frames,
    tileData tileset !! tileid0 = Some entry /\
    animation entry = Some frames /\
    matches tileset ls tileid0 (AnimatedTile.tile a) /\
    AnimatedTile.new (AnimatedTile.tile a) (Some frames) (firstgid tileset)
      = Normal a.

(** The lists that a loop's bodies give, one after the other. *)
Fixpoint collect_from {A B : Type} (i : nat) (xs : list A)
    (g : A -> nat -> list B) : list B :=
  match xs with
  | [] => []
  | x :: xs' => g x i ++ collect_from (Datatypes.S i) xs' g
  end.

Definition collect {A B : Type} (xs : list A) (g : A -> nat -> list B)
  : list B :=
  collect_from 0 xs g.

(** The animated tiles of the matching tiles, in the order of the scan:
    what [create] pushes when no construction throws. *)
Definition scan (tileset : Tileset) (ls : list LayerData)
  : list AnimatedTile.t :=
  collect (own_keys (tileData tileset)) (fun tileid0 _ =>
    collect ls (fun layer l =>
      if is_static layer then []
      else
        collect (data layer) (fun tileRow r =>
          collect tileRow (fun tile0 c =>
            if index tile0 - firstgid tileset =? parseInt tileid0 then
              match tileData tileset !! tileid0 with
              | Some entry =>
                  match AnimatedTile.new
                          {| ref_layer := l; ref_row := r; ref_col := c |}
                          (animation entry) (firstgid tileset) with
                  | Normal a => [a]
                  | Throw _ => []
                  end
              | None => []
              end
            else [])))).

(** The levels of [scan], innermost first. *)
Definition scan_tile (tileset : Tileset) (tileid0 : N) (l r : nat)
    (tile0 : Tile) (c : nat) : list AnimatedTile.t :=
  if index tile0 - firstgid tileset =? parseInt tileid0 then
    match tileData tileset !! tileid0 with
    | Some entry =>
        match AnimatedTile.new
                {| ref_layer := l; ref_row := r; ref_col := c |}
                (animation entry) (firstgid tileset) with
        | Normal a => [a]
        | Throw _ => []
        end
    | None => []
    end
  else [].

Definition scan_row (tileset : Tileset) (tileid0 : N) (l : nat)
    (tileRow : list Tile) (r : nat) : list AnimatedTile.t :=
  collect tileRow (scan_tile tileset tileid0 l r).

Definition scan_layer (tileset : Tileset) (tileid0 : N)
    (layer : LayerData) (l : nat) : list AnimatedTile.t :=
  if is_static layer then []
  else collect (data layer) (scan_row tileset tileid0 l).

Definition scan_key (tileset : Tileset) (ls : list LayerData)
    (tileid0 : N) : list AnimatedTile.t :=
  collect ls (scan_layer tileset tileid0).

(** In a scene whose layers are [ls], [m] returns after pushing [added]
    and doing nothing else. *)
Definition pushes_on (ls : list LayerData) (m : M t unit)
    (added : list AnimatedTile.t) : Prop :=
  forall this,
    layers this = ls ->
    m this =
      (Normal tt, set_animatedTiles this (animatedTiles this ++ added)).

(** Every matching tile shows a local tile whose entry carries at least
    one frame. *)
Definition matched_entries_animated (tileset : Tileset)
    (ls : list LayerData) : Prop :=
  forall tileid0 entry r,
    tileData tileset !! tileid0 = Some entry ->
    matches tileset ls tileid0 r ->
    exists frame0 rest, animation entry = Some (frame0 :: rest).

(** What holds all along the scan that starts in [this0]: the layers are
    untouched, and the animated tiles pushed so far were built for
    matching tiles. *)
Definition scan_inv (tileset : Tileset) (this0 this : t) : Prop :=
  layers this = layers this0 /\
  exists added,
    animatedTiles this = animatedTiles this0 ++ added /\
    Forall (scanned tileset (layers this0)) added.

(** Two scenes hold the same animated tiles. *)
Definition same_tiles (this this' : t) : Prop :=
  animatedTiles this = animatedTiles this'.

(** Two lists of layers agree except for the content of static layers. *)
Definition same_dynamic (ls ls' : list LayerData) : Prop :=
  length ls = length ls' /\
  forall l layer layer',
    ls !! l = Some layer -> ls' !! l = Some layer' ->
    layer = layer' \/ (is_static layer = true /\ is_static layer' = true).

(** What holds from frame to frame in a scene whose layers were [ls0] when
    the driver began: the static layers are as they were, no layer changed
    its kind, and every animated tile refers to a layer that is not
    static. *)
Definition driver_inv (ls0 : list LayerData) (this : t) : Prop :=
  (forall l layer,
     ls0 !! l = Some layer -> is_static layer = true ->
     layers this !! l = Some layer) /\
  (forall l,
     tilemapLayer_type <$> layers this !! l = tilemapLayer_type <$> ls0 !! l) /\
  Forall (fun a =>
            exists layer,
              ls0 !! ref_layer (AnimatedTile.tile a) = Some layer /\
              is_static layer = false)
         (animatedTiles this).

End TilemapScene.

(** ** A scene to run *)

Module Demo.

Definition water : TileAnimationData :=
  [ {| duration := 100; tileid := 0 |};
    {| duration := 100; tileid := 1 |};
    {| duration := 100; tileid := 2 |} ].

Definition tileset : Tileset :=
  {| firstgid := 1;
     tileData := {[ 0%N := {| animation := Some water |} ]} |}.

Definition scene : TilemapScene.t :=
  {| TilemapScene.animatedTiles := [];
     TilemapScene.layers :=
       [ {| tilemapLayer_type := "DynamicTilemapLayer";
            data := [ [ {| index := 1 |}; {| index := 7 |} ] ] |} ] |}.

(** A one-frame animation of duration 0. *)
Definition frozen : TileAnimationData :=
  [ {| duration := 0; tileid := 0 |} ].

(** The animation of local tile 0 starts on local tile 5. *)
Definition shifted_tileset : Tileset :=
  {| firstgid := 1;
     tileData :=
       {[ 0%N := {| animation :=
                      Some [ {| duration := 100; tileid := 5 |};
                             {| duration := 100; tileid := 6 |} ] |} ]} |}.

(** Local tile 0 carries no animation (say, only a collision shape), local
    tile 1 is animated. *)
Definition mixed_tileset : Tileset :=
  {| firstgid := 1;
     tileData :=
       {[ 0%N := {| animation := None |};
          1%N := {| animation := Some water |} ]} |}.

Definition mixed_scene : TilemapScene.t :=
  {| TilemapScene.animatedTiles := [];
     TilemapScene.layers :=
       [ {| tilemapLayer_type := "DynamicTilemapLayer";
            data := [ [ {| index := 1 |}; {| index := 2 |} ] ] |} ] |}.

(** A static layer under a dynamic one, both showing the animated tile. *)
Definition layered_scene : TilemapScene.t :=
  {| TilemapScene.animatedTiles := [];
     TilemapScene.layers :=
       [ {| tilemapLayer_type := "StaticTilemapLayer";
            data := [ [ {| index := 1 |} ] ] |};
         {| tilemapLayer_type := "DynamicTilemapLayer";
            data := [ [ {| index := 1 |} ] ] |} ] |}.

Definition origin : TileRef :=
  {| ref_layer := 0; ref_row := 0; ref_col := 0 |}.

(** The animated tile that [new] builds at [origin] from [water]. *)
Definition animated : AnimatedTile.t :=
  {| AnimatedTile.tile := origin;
     AnimatedTile.tileAnimationData := water;
     AnimatedTile.firstgid := 1;
     AnimatedTile.elapsedTime := Num 0;
     AnimatedTile.animationDuration := 300 |}.

(** A table whose only entry carries no animation. *)
Definition plain_tileset : Tileset :=
  {| firstgid := 1;
     tileData := {[ 0%N := {| animation := None |} ]} |}.

End Demo.

(** A definition the spec calls malformed: no frame, or a total duration
    (first frame's duration times the frame count) that is not positive. *)
Definition malformed (frames : TileAnimationData) : Prop :=
  frames = [] \/
  exists frame0,
    frames !! 0%nat = Some frame0 /\
    duration frame0 * Z.of_nat (length frames) <= 0.


(** ** Doubles *)

Module Binary64.

Definition prec : Z := 53.
Definition emax : Z := 1024.

Abbreviation double := spec_float.

(** The double nearest to an integer. *)
Definition of_Z (z : Z) : double := binary_normalize prec emax z 0 false.

(** [a + b], [a * b], [a / b], rounded to nearest, ties to even. *)
Definition add : double -> double -> double := SFadd prec emax.
Definition mul : double -> double -> double := SFmul prec emax.
Definition div : double -> double -> double := SFdiv prec emax.

(** [a % b]: exact, with the sign of the dividend. *)
Definition rem (a b : double) : double :=
  match a, b with
  | S754_nan, _ | _, S754_nan => S754_nan
  | S754_infinity _, _ => S754_nan
  | _, S754_zero _ => S754_nan
  | _, S754_infinity _ => a
  | S754_zero _, S754_finite _ _ _ => a
  | S754_finite sa ma ea, S754_finite _ mb eb =>
      let e := Z.min ea eb in
      let r := (Z.pos ma * 2 ^ (ea - e)) mod (Z.pos mb * 2 ^ (eb - e)) in
      binary_normalize prec emax (cond_Zopp sa r) e sa
  end.

(** [Math.floor(x)] as an integer; [None] when [x] is [NaN] or
    infinite. *)
Definition floor (x : double) : option Z :=
  match x with
  | S754_zero _ => Some 0
  | S754_finite s m e =>
      Some (if 0 <=? e then cond_Zopp s (Z.pos m) * 2 ^ e
            else cond_Zopp s (Z.pos m) / 2 ^ (- e))
  | _ => None
  end.

(** [arr[n]] for [n] the result of [Math.floor]. *)
Definition array_get {A : Type} (arr : list A) (n : option Z) : option A :=
  match n with
  | Some z => if 0 <=? z then arr !! Z.to_nat z else None
  | None => None
  end.

#[global] Instance double_eq_dec : EqDecision double.
Proof. solve_decision. Defined.

End Binary64.

(** ** AnimatedTile on doubles *)

Module AnimatedTile64.

Import Binary64.

Record t : Type := {
  tile : TileRef;
  tileAnimationData : TileAnimationData;
  firstgid : Z;
  elapsedTime : double;
  animationDuration : double
}.

Definition set_elapsedTime (this : t) (e : double) : t :=
  {| tile := tile this;
     tileAnimationData := tileAnimationData this;
     firstgid := firstgid this;
     elapsedTime := e;
     animationDuration := animationDuration this |}.

(** [new AnimatedTile(tile, tileAnimationData, firstgid)] *)
Definition new (tile0 : TileRef) (tileAnimationData0 : option TileAnimationData)
    (firstgid0 : Z) : completion t :=
  match tileAnimationData0 with
  | None => Throw TypeError
  | Some frames =>
      match defined (frames !! 0%nat) with
      | Throw e => Throw e
      | Normal frame0 =>
          Normal {| tile := tile0;
                    tileAnimationData := frames;
                    firstgid := firstgid0;
                    elapsedTime := of_Z 0;
                    animationDuration :=
                      mul (of_Z (duration frame0))
                          (of_Z (Z.of_nat (length frames))) |}
      end
  end.

Definition Env : Type := (t * list LayerData)%type.

Definition this_ : M Env t := gets fst.

(** [update(delta)] *)
Definition update (delta : double) : M Env unit :=
  modify (fun '(this, ls) =>
    (set_elapsedTime this (add (elapsedTime this) delta), ls)) ;;
  modify (fun '(this, ls) =>
    (set_elapsedTime this
       (rem (elapsedTime this) (animationDuration this)), ls)) ;;
  this <- this_ ;;
  frame0 <- lift (defined (tileAnimationData this !! 0%nat)) ;;
  let animatonFrameIndex :=
    floor (div (elapsedTime this) (of_Z (duration frame0))) in
  frame <- lift (defined
             (array_get (tileAnimationData this) animatonFrameIndex)) ;;
  modify (fun '(this, ls) =>
    (this, set_tile_index (tile this) (tileid frame + firstgid this) ls)).

(** [update] called with each delta in turn; a throw ends the run. *)
Definition updates (deltas : list double) : M Env unit :=
  forEach deltas (fun delta _ => update delta).

(** The animated tile of whole milliseconds, on doubles. *)
Definition of_whole (a : AnimatedTile.t) (e : Z) : t :=
  {| tile := AnimatedTile.tile a;
     tileAnimationData := AnimatedTile.tileAnimationData a;
     firstgid := AnimatedTile.firstgid a;
     elapsedTime := of_Z e;
     animationDuration := of_Z (AnimatedTile.animationDuration a) |}.

End AnimatedTile64.

(** ** Player *)

Module Player.

(** [isDown] of the four keys when [update] runs. *)
Record Keys : Type := {
  keyW : bool;
  keyA : bool;
  keyS : bool;
  keyD : bool
}.

(** What [update] reads and sets of the sprite: the velocity of its body,
    its horizontal flip and the key of its current animation. *)
Record t : Type := {
  velocity_x : Z;
  velocity_y : Z;
  flipX : bool;
  currentAnim : option string
}.

(** [this.getBody().setVelocity(x, y)] *)
Definition setVelocity (x y : Z) (this : t) : t :=
  {| velocity_x := x; velocity_y := y;
     flipX := flipX this; currentAnim := currentAnim this |}.

(** [this.setFlipX(value)] *)
Definition setFlipX (value : bool) (this : t) : t :=
  {| velocity_x := velocity_x this; velocity_y := velocity_y this;
     flipX := value; currentAnim := currentAnim this |}.

(** [this.anims.play(key, true)]: [key] is the current animation after
    the call, whether the engine restarts it or lets it run on. *)
Definition play (key : string) (this : t) : t :=
  {| velocity_x := velocity_x this; velocity_y := velocity_y this;
     flipX := flipX this; currentAnim := Some key |}.

(** [update()] *)
Definition update (keys : Keys) (this : t) : t :=
  let this :=
    if keyW keys then setVelocity 0 (-64) this
    else if keyA keys then setVelocity (-64) 0 this
    else if keyS keys then setVelocity 0 64 this
    else if keyD keys then setVelocity 64 0 this
    else setVelocity 0 0 this in
  let this :=
    if 0 <? velocity_x this then setFlipX false this
    else if velocity_x this <? 0 then setFlipX true this
    else this in
  if (velocity_x this =? 0) && (velocity_y this =? 0)
  then play "idle" this
  else play "run" this.

(** No key is down. *)
Definition released (keys : Keys) : bool :=
  negb (keyW keys || keyA keys || keyS keys || keyD keys).

End Player.

(** ** The driver over whole runs *)

#[global] Instance error_eq_dec : EqDecision error.
Proof. solve_decision. Defined.

#[global] Instance completion_eq_dec {A : Type} `{EqDecision A} :
  EqDecision (completion A).
Proof. solve_decision. Defined.

#[global] Instance TileRef_eq_dec : EqDecision TileRef.
Proof. solve_decision. Defined.

(** The sum of the deltas of a run. *)
Definition total (deltas : list Z) : Z := foldr Z.add 0 deltas.

(** The animated tile [delta] milliseconds further in its cycle. *)
Definition advance (delta : Z) (a : AnimatedTile.t) : AnimatedTile.t :=
  match AnimatedTile.elapsedTime a with
  | Num e =>
      AnimatedTile.set_elapsedTime a
        (Num ((e + delta) mod AnimatedTile.animationDuration a))
  | _ => a
  end.

(** An animated tile as [new] builds it from a definition of positive
    first duration, somewhere in its cycle. *)
Definition sound (a : AnimatedTile.t) : Prop :=
  (exists D, AnimatedTile.cycle_of a D) /\ AnimatedTile.in_cycle a.

(** Two animated tiles that differ at most in the durations of the frames
    after the first. *)
Definition same_schedule (a a' : AnimatedTile.t) : Prop :=
  AnimatedTile.tile a = AnimatedTile.tile a' /\
  AnimatedTile.firstgid a = AnimatedTile.firstgid a' /\
  AnimatedTile.elapsedTime a = AnimatedTile.elapsedTime a' /\
  AnimatedTile.animationDuration a = AnimatedTile.animationDuration a' /\
  tileid <$> AnimatedTile.tileAnimationData a =
    tileid <$> AnimatedTile.tileAnimationData a' /\
  duration <$> AnimatedTile.tileAnimationData a !! 0%nat =
    duration <$> AnimatedTile.tileAnimationData a' !! 0%nat.

(** A scene whose animated tiles are sound, refer to tiles of the grid and
    to no tile twice. *)
Definition healthy (this : TilemapScene.t) : Prop :=
  Forall sound (TilemapScene.animatedTiles this) /\
  NoDup (AnimatedTile.tile <$> TilemapScene.animatedTiles this) /\
  Forall (fun a =>
            is_Some (get_tile (TilemapScene.layers this)
                       (AnimatedTile.tile a)))
         (TilemapScene.animatedTiles this).

(** Every matching tile shows a local tile whose entry carries a first
    frame of positive duration. *)
Definition matched_entries_positive (tileset : Tileset)
    (ls : list LayerData) : Prop :=
  forall tileid0 entry r,
    tileData tileset !! tileid0 = Some entry ->
    TilemapScene.matches tileset ls tileid0 r ->
    exists frame0 rest,
      animation entry = Some (frame0 :: rest) /\ 0 < duration frame0.

(** The frames of a running scene, as long as no [update] throws. *)
Definition frames (deltas : list Z) : M TilemapScene.t unit :=
  forEach deltas (fun delta _ => TilemapScene.update 0 delta).

Module Sample.

(** Frames of unequal durations, and the same with equal ones. *)
Definition uneven : TileAnimationData :=
  [ {| duration := 100; tileid := 0 |};
    {| duration := 300; tileid := 1 |};
    {| duration := 50; tileid := 2 |} ].

(** A tileset whose animation of local tile 0 lasts 0 ms per frame. *)
Definition frozen_tileset : Tileset :=
  {| firstgid := 1;
     tileData := {[ 0%N := {| animation := Some Demo.frozen |} ]} |}.

(** The animated tile that [new] builds at the static layer's place from
    [Demo.frozen]: its total duration is 0. *)
Definition stuck : AnimatedTile.t :=
  {| AnimatedTile.tile := Demo.origin;
     AnimatedTile.tileAnimationData := Demo.frozen;
     AnimatedTile.firstgid := 1;
     AnimatedTile.elapsedTime := Num 0;
     AnimatedTile.animationDuration := 0 |}.

(** A scene whose first animated tile is [stuck]. *)
Definition blocked_scene : TilemapScene.t :=
  {| TilemapScene.animatedTiles :=
       [ stuck;
         {| AnimatedTile.tile :=
              {| ref_layer := 0; ref_row := 0; ref_col := 1 |};
            AnimatedTile.tileAnimationData := Demo.water;
            AnimatedTile.firstgid := 1;
            AnimatedTile.elapsedTime := Num 0;
            AnimatedTile.animationDuration := 300 |} ];
     TilemapScene.layers := TilemapScene.layers Demo.scene |}.

(** An empty cell beside an animated one. *)
Definition sparse_scene : TilemapScene.t :=
  {| TilemapScene.animatedTiles := [];
     TilemapScene.layers :=
       [ {| tilemapLayer_type := "DynamicTilemapLayer";
            data := [ [ {| index := -1 |}; {| index := 1 |} ] ] |} ] |}.

(** Two cells that show the animated tile. *)
Definition pair_scene : TilemapScene.t :=
  {| TilemapScene.animatedTiles := [];
     TilemapScene.layers :=
       [ {| tilemapLayer_type := "DynamicTilemapLayer";
            data := [ [ {| index := 1 |}; {| index := 1 |} ] ] |} ] |}.

(** [pair_scene] after the scan, and the same with its animated tiles in
    the opposite order. *)
Definition pair_scanned : TilemapScene.t :=
  exec (TilemapScene.init ;; TilemapScene.create Demo.tileset) pair_scene.

Definition pair_reversed : TilemapScene.t :=
  {| TilemapScene.animatedTiles :=
       reverse (TilemapScene.animatedTiles pair_scanned);
     TilemapScene.layers := TilemapScene.layers pair_scanned |}.

End Sample.

(** A run at sixty frames a second. *)
Module Replay.

Import Binary64.

(** 1000 / 60 milliseconds. *)
Definition sixtieth : double := div (of_Z 1000) (of_Z 60).

(** The animated tile of [Demo.water] at [Demo.origin], on doubles. *)
Definition fresh : AnimatedTile64.t :=
  {| AnimatedTile64.tile := Demo.origin;
     AnimatedTile64.tileAnimationData := Demo.water;
     AnimatedTile64.firstgid := 1;
     AnimatedTile64.elapsedTime := of_Z 0;
     AnimatedTile64.animationDuration := of_Z 300 |}.

(** The tile and the grid after [n] frames of [sixtieth]. *)
Definition after (n : nat) : AnimatedTile64.Env :=
  exec (AnimatedTile64.updates (replicate n sixtieth))
       (fresh, TilemapScene.layers Demo.scene).

(** On whole milliseconds [e] and [delta], the update on doubles leaves
    what the update on integers leaves. *)
Definition agree_at (e delta : Z) : bool :=
  let a := AnimatedTile.set_elapsedTime Demo.animated (Num e) in
  let ls := TilemapScene.layers Demo.scene in
  match AnimatedTile.update delta (a, ls),
        AnimatedTile64.update (of_Z delta) (AnimatedTile64.of_whole a e, ls)
  with
  | (c, (a', ls')), (c64, (b', ls64)) =>
      match AnimatedTile.elapsedTime a' with
      | Num e' =>
          bool_decide (c = c64) &&
          SFeqb (AnimatedTile64.elapsedTime b') (of_Z e') &&
          bool_decide (index <$> get_tile ls' Demo.origin =
                       index <$> get_tile ls64 Demo.origin)
      | _ => false
      end
  end.

End Replay.

(** * Properties *)

(** ** The tile grid *)

Section grid.
Implicit Types (t : TileRef) (ls : list LayerData) (v : Z).

Lemma set_tile_index_length t v ls :
  length (set_tile_index t v ls) = length ls.
Proof. unfold set_tile_index. apply length_alter. Qed.

(** Writing a tile leaves every other layer as it is. *)
Lemma set_tile_index_other_layer t v ls l :
  l <> ref_layer t -> set_tile_index t v ls !! l = ls !! l.
Proof.
  intros Hl. unfold set_tile_index.
  apply list_lookup_alter_ne. congruence.
Qed.

(** Writing a tile never changes the kind of a layer. *)
Lemma set_tile_index_layer_type t v ls l :
  tilemapLayer_type <$> set_tile_index t v ls !! l =
  tilemapLayer_type <$> ls !! l.
Proof.
  unfold set_tile_index. rewrite list_lookup_alter.
  case_decide as Hl; [subst l|done].
  by destruct (ls !! ref_layer t).
Qed.

Lemma get_set_tile_index t v ls :
  is_Some (get_tile ls t) ->
  get_tile (set_tile_index t v ls) t = Some {| index := v |}.
Proof.
  unfold get_tile, set_tile_index. intros [tile0 H].
  rewrite list_lookup_alter_eq.
  destruct (ls !! ref_layer t) as [layer|]; [simpl|done].
  rewrite list_lookup_alter_eq.
  destruct (data layer !! ref_row t) as [tileRow|]; [simpl|done].
  rewrite list_lookup_alter_eq. by rewrite H.
Qed.

Lemma get_set_tile_index_ne t t' v ls :
  t <> t' -> get_tile (set_tile_index t v ls) t' = get_tile ls t'.
Proof.
  intros Hne. unfold get_tile, set_tile_index.
  rewrite list_lookup_alter. case_decide as Hl; [|done].
  rewrite Hl. destruct (ls !! ref_layer t') as [layer|]; [simpl|done].
  rewrite list_lookup_alter. case_decide as Hr; [|done].
  rewrite Hr. destruct (data layer !! ref_row t') as [tileRow|]; [simpl|done].
  apply list_lookup_alter_ne. intros Hc.
  destruct t, t'; simpl in *; congruence.
Qed.

(** A second write to the same tile hides the first. *)
Lemma set_tile_index_twice t v w ls :
  set_tile_index t w (set_tile_index t v ls) = set_tile_index t w ls.
Proof.
  unfold set_tile_index. rewrite list_alter_alter_eq.
  apply list_alter_ext; [|done]. intros layer _. unfold set_data; simpl.
  f_equal. rewrite list_alter_alter_eq.
  apply list_alter_ext; [|done]. intros tileRow _. simpl.
  by rewrite list_alter_alter_eq.
Qed.

(** Writing the index a tile already has changes nothing. *)
Lemma set_tile_index_same t v ls :
  get_tile ls t = Some {| index := v |} -> set_tile_index t v ls = ls.
Proof.
  unfold get_tile, set_tile_index. intros H.
  apply list_eq. intros l. rewrite list_lookup_alter.
  case_decide as Hl; [subst l|done].
  destruct (ls !! ref_layer t) as [layer|]; [simpl|done].
  f_equal. destruct layer as [ty d]. unfold set_data; simpl in *. f_equal.
  apply list_eq. intros r. rewrite list_lookup_alter.
  case_decide as Hr; [subst r|done].
  destruct (d !! ref_row t) as [tileRow|]; [simpl|done].
  f_equal. apply list_eq. intros c. rewrite list_lookup_alter.
  case_decide as Hc; [subst c|done].
  by rewrite H.
Qed.

End grid.

(** ** AnimatedTile: construction and one update *)

Section animated_tile.
Import AnimatedTile.
Implicit Types (a : AnimatedTile.t) (ls : list LayerData).
Implicit Types (delta e D : Z).

Lemma set_elapsedTime_id a : set_elapsedTime a (elapsedTime a) = a.
Proof. by destruct a. Qed.

(** What a successful [new] built. *)
Lemma new_Normal tile0 frames gid a :
  new tile0 frames gid = Normal a ->
  exists fs frame0,
    frames = Some fs /\ fs !! 0%nat = Some frame0 /\
    a = {| tile := tile0; tileAnimationData := fs; firstgid := gid;
           elapsedTime := Num 0;
           animationDuration := duration frame0 * Z.of_nat (length fs) |}.
Proof.
  unfold new. destruct frames as [fs|]; [|done].
  destruct (fs !! 0%nat) as [frame0|] eqn:H0; simpl; [|done].
  intros [= <-]. by exists fs, frame0.
Qed.

Lemma new_cycle_of tile0 frames gid a :
  new tile0 frames gid = Normal a ->
  exists D, cycle_of a D.
Proof.
  intros (fs & frame0 & -> & H0 & ->)%new_Normal.
  exists (duration frame0), frame0. by simpl.
Qed.

(** [update] in one step: the new elapsed time, then the frame lookup
    that decides between the write and the [TypeError]. *)
Lemma update_unfold delta a ls frame0 :
  tileAnimationData a !! 0%nat = Some frame0 ->
  update delta (a, ls) =
    let e' := Number.rem (Number.add (elapsedTime a) (Num delta))
                         (Num (animationDuration a)) in
    match array_get (tileAnimationData a)
            (Number.floor_div e' (Num (duration frame0))) with
    | Some frame =>
        (Normal tt,
         (set_elapsedTime a e',
          set_tile_index (tile a) (tileid frame + firstgid a) ls))
    | None => (Throw TypeError, (set_elapsedTime a e', ls))
    end.
Proof.
  intros H0. unfold update, bind, modify, this_, gets, lift. simpl.
  rewrite H0. simpl.
  by destruct (array_get _ _).
Qed.

(** With no frame at all (no such object comes out of [new]) the read of
    the first frame throws. *)
Lemma update_no_frames delta a ls :
  tileAnimationData a !! 0%nat = None ->
  update delta (a, ls) =
    (Throw TypeError,
     (set_elapsedTime a
        (Number.rem (Number.add (elapsedTime a) (Num delta))
                    (Num (animationDuration a))), ls)).
Proof.
  intros H0. unfold update, bind, modify, this_, gets, lift. simpl.
  by rewrite H0.
Qed.

(** [update] assigns to [elapsedTime] and to the tile, nothing else. *)
Lemma update_fields delta a ls :
  let a' := fst (exec (update delta) (a, ls)) in
  tile a' = tile a /\
  tileAnimationData a' = tileAnimationData a /\
  firstgid a' = firstgid a /\
  animationDuration a' = animationDuration a.
Proof.
  unfold exec.
  destruct (tileAnimationData a !! 0%nat) as [frame0|] eqn:H0.
  - rewrite (update_unfold _ _ _ _ H0). simpl.
    by destruct (array_get _ _).
  - by rewrite (update_no_frames _ _ _ H0).
Qed.

Lemma update_cycle_of delta a ls D :
  cycle_of a D -> cycle_of (fst (exec (update delta) (a, ls))) D.
Proof.
  intros (frame0 & H0 & HD & HT).
  destruct (update_fields delta a ls) as (_ & Hf & _ & Hd).
  exists frame0. by rewrite Hf, Hd.
Qed.

(** The frame index of an elapsed time within the cycle is an index of
    the frame list. *)
Lemma frame_index_in_range (frames : list Frame) D e :
  0 <= e < D * Z.of_nat (length frames) ->
  0 <= e / D /\ (Z.to_nat (e / D) < length frames)%nat.
Proof.
  intros He.
  assert (0 < D) by nia.
  assert (0 <= e / D) by (apply Z.div_pos; lia).
  split; [done|].
  assert (e / D < Z.of_nat (length frames)); [|lia].
  apply Z.div_lt_upper_bound; lia.
Qed.

(** One update within the cycle: the spec's three steps. *)
Lemma update_in_cycle delta a ls D e :
  cycle_of a D ->
  0 < animationDuration a ->
  elapsedTime a = Num e -> 0 <= e -> 0 <= delta ->
  let e' := (e + delta) mod animationDuration a in
  exists frame,
    tileAnimationData a !! Z.to_nat (e' / D) = Some frame /\
    update delta (a, ls) =
      (Normal tt,
       (set_elapsedTime a (Num e'),
        set_tile_index (tile a) (tileid frame + firstgid a) ls)).
Proof.
  intros (frame0 & H0 & HD & HT) Hpos He He0 Hdelta e'.
  assert (Hrange : 0 <= e' < animationDuration a)
    by (apply Z.mod_pos_bound; lia).
  assert (HD0 : 0 < D) by nia.
  destruct (frame_index_in_range (tileAnimationData a) D e') as [Hi Hlt];
    [by rewrite <- HT|].
  destruct (lookup_lt_is_Some_2 _ _ Hlt) as [frame Hframe].
  exists frame. split; [done|].
  rewrite (update_unfold _ _ _ _ H0), He. simpl.
  destruct (Z.eqb_spec (animationDuration a) 0) as [|_]; [lia|].
  rewrite Z.rem_mod_nonneg by lia. fold e'. simpl. rewrite HD.
  destruct (Z.eqb_spec D 0) as [|_]; [lia|]. simpl.
  destruct (Z.leb_spec 0 (e' / D)) as [_|]; [|lia].
  by rewrite Hframe.
Qed.

(** Every reachable object has its cycle; with a positive total duration
    its elapsed time is within the cycle. *)
Lemma reachable_inv a :
  reachable a ->
  (exists D, cycle_of a D) /\ (0 < animationDuration a -> in_cycle a).
Proof.
  induction 1 as [tile0 frames gid a Hnew|a delta ls Hr [[D HD] IH] Hdelta].
  - split; [by eapply new_cycle_of|].
    apply new_Normal in Hnew as (fs & frame0 & -> & H0 & ->). simpl.
    intros Hpos. exists 0. simpl. split; [done|lia].
  - split; [exists D; by apply update_cycle_of|].
    destruct (update_fields delta a ls) as (_ & _ & _ & Hd).
    simpl in Hd. rewrite Hd. intros Hpos.
    destruct (IH Hpos) as (e & He & Hrange).
    destruct (update_in_cycle delta a ls D e) as (frame & _ & Hup);
      [done|done|done|lia|done|].
    unfold exec, in_cycle. rewrite Hup. simpl.
    eexists. split; [done|]. apply Z.mod_pos_bound. lia.
Qed.

End animated_tile.

(** ** AnimatedTile: the frame cycle *)

Section frame_cycle.
Import AnimatedTile.
Implicit Types (a : AnimatedTile.t) (ls : list LayerData).
Implicit Types (delta e D : Z).

(** C1.  For an animated tile whose cycle is [D] per frame, [T] = [D]
    times the frame count in total: [update(delta)] returns, leaves
    (elapsed + delta) mod T as the elapsed time, takes
    floor(elapsed / D) as the frame index, which names a frame of the
    animation, and writes that frame's [tileid + firstgid] into the
    index of the tile it refers to. *)
Theorem update_sets_time_frame_index a ls delta D :
  reachable a -> cycle_of a D ->
  0 < animationDuration a -> 0 <= delta ->
  exists e frame,
    elapsedTime a = Num e /\
    let T := D * Z.of_nat (length (tileAnimationData a)) in
    let elapsed_time := (e + delta) mod T in
    let frame_index := elapsed_time / D in
    0 <= frame_index /\
    tileAnimationData a !! Z.to_nat frame_index = Some frame /\
    update delta (a, ls) =
      (Normal tt,
       (set_elapsedTime a (Num elapsed_time),
        set_tile_index (tile a) (tileid frame + firstgid a) ls)) /\
    (is_Some (get_tile ls (tile a)) ->
     get_tile (snd (exec (update delta) (a, ls))) (tile a) =
       Some {| index := tileid frame + firstgid a |}).
Proof.
  intros Hr HD Hpos Hdelta.
  destruct (reachable_inv a Hr) as [_ Hin].
  destruct (Hin Hpos) as (e & He & Hrange).
  destruct (update_in_cycle delta a ls D e) as (frame & Hframe & Hup);
    [done|done|done|lia|done|].
  destruct HD as (frame0 & H0 & HD & HT).
  exists e, frame. split; [done|]. rewrite <- HT. simpl.
  split; [|split; [done|split; [done|]]].
  - apply frame_index_in_range with (frames := tileAnimationData a).
    rewrite <- HT. apply Z.mod_pos_bound. lia.
  - intros Hsome. unfold exec. rewrite Hup. simpl.
    by apply get_set_tile_index.
Qed.

Lemma update_sets_time_frame_index_witness :
  reachable Demo.animated /\
  cycle_of Demo.animated 100 /\
  0 < animationDuration Demo.animated /\
  0 <= 150 /\
  exists e frame,
    elapsedTime Demo.animated = Num e /\
    let T := 100 * Z.of_nat (length (tileAnimationData Demo.animated)) in
    let elapsed_time := (e + 150) mod T in
    let frame_index := elapsed_time / 100 in
    0 <= frame_index /\
    tileAnimationData Demo.animated !! Z.to_nat frame_index = Some frame /\
    update 150 (Demo.animated, TilemapScene.layers Demo.scene) =
      (Normal tt,
       (set_elapsedTime Demo.animated (Num elapsed_time),
        set_tile_index (tile Demo.animated)
          (tileid frame + firstgid Demo.animated)
          (TilemapScene.layers Demo.scene))) /\
    (is_Some (get_tile (TilemapScene.layers Demo.scene)
                (tile Demo.animated)) ->
     get_tile
       (snd (exec (update 150)
               (Demo.animated, TilemapScene.layers Demo.scene)))
       (tile Demo.animated) =
       Some {| index := tileid frame + firstgid Demo.animated |}).
Proof.
  assert (Hr : reachable Demo.animated)
    by (apply (reachable_new Demo.origin (Some Demo.water) 1); reflexivity).
  assert (HD : cycle_of Demo.animated 100)
    by (eexists; repeat split; reflexivity).
  assert (Hpos : 0 < animationDuration Demo.animated) by reflexivity.
  assert (Hdelta : 0 <= 150) by (intros H; discriminate H).
  repeat (split; [assumption|]).
  exact (update_sets_time_frame_index Demo.animated
           (TilemapScene.layers Demo.scene) 150 100 Hr HD Hpos Hdelta).
Defined.

(** C3, for whole milliseconds.  With a positive total duration, an
    elapsed time and deltas [d1], [d2] >= 0 that are whole numbers of
    milliseconds, [update(d1)] followed by [update(d2)] ends in the state
    that the single call [update(d1 + d2)] ends in, so the tile shows the
    same index; each of the calls returns. *)
Theorem update_additive a ls d1 d2 :
  reachable a -> 0 < animationDuration a -> 0 <= d1 -> 0 <= d2 ->
  (update d1 ;; update d2) (a, ls) = update (d1 + d2) (a, ls) /\
  fst (update (d1 + d2) (a, ls)) = Normal tt /\
  get_tile (snd (exec (update d1 ;; update d2) (a, ls))) (tile a) =
  get_tile (snd (exec (update (d1 + d2)) (a, ls))) (tile a).
Proof.
  intros Hr Hpos Hd1 Hd2.
  destruct (reachable_inv a Hr) as [[D HD] Hin].
  destruct (Hin Hpos) as (e & He & Hrange).
  destruct (update_in_cycle d1 a ls D e) as (frame1 & Hframe1 & Hup1);
    [done|done|done|lia|done|].
  set (e1 := (e + d1) mod animationDuration a) in *.
  assert (0 <= e1 < animationDuration a) by (apply Z.mod_pos_bound; lia).
  pose proof (update_cycle_of d1 a ls D HD) as HD1.
  unfold exec in HD1. rewrite Hup1 in HD1. simpl in HD1.
  destruct (update_in_cycle d2 (set_elapsedTime a (Num e1))
              (set_tile_index (tile a) (tileid frame1 + firstgid a) ls)
              D e1) as (frame2 & Hframe2 & Hup2);
    [done|done|done|lia|done|].
  destruct (update_in_cycle (d1 + d2) a ls D e) as (frame & Hframe & Hup);
    [done|done|done|lia|lia|].
  simpl in Hframe2, Hup2.
  assert (Heq : (e1 + d2) mod animationDuration a =
                (e + (d1 + d2)) mod animationDuration a).
  { unfold e1. rewrite Z.add_mod_idemp_l by lia. f_equal. lia. }
  rewrite Heq in Hframe2, Hup2.
  assert (frame2 = frame) as -> by congruence.
  assert (Hseq : (update d1 ;; update d2) (a, ls) = update (d1 + d2) (a, ls)).
  { unfold bind at 1. rewrite Hup1, Hup2, Hup.
    by rewrite set_tile_index_twice. }
  split; [done|]. split; [by rewrite Hup|].
  unfold exec. by rewrite Hseq.
Qed.

Lemma update_additive_witness :
  reachable Demo.animated /\
  0 < animationDuration Demo.animated /\
  0 <= 150 /\ 0 <= 200 /\
  (update 150 ;; update 200)
    (Demo.animated, TilemapScene.layers Demo.scene) =
  update (150 + 200) (Demo.animated, TilemapScene.layers Demo.scene).
Proof.
  assert (Hr : reachable Demo.animated)
    by (apply (reachable_new Demo.origin (Some Demo.water) 1); reflexivity).
  assert (Hpos : 0 < animationDuration Demo.animated) by reflexivity.
  assert (Hd1 : 0 <= 150) by (intros H; discriminate H).
  assert (Hd2 : 0 <= 200) by (intros H; discriminate H).
  repeat (split; [assumption|]).
  exact (proj1 (update_additive Demo.animated
                  (TilemapScene.layers Demo.scene) 150 200 Hr Hpos Hd1 Hd2)).
Defined.

(** The frame that [displays] speaks of, in the cycle. *)
Lemma frame_at_in_cycle a D e :
  0 < D -> 0 <= e ->
  frame_at a D e = tileAnimationData a !! Z.to_nat (e / D).
Proof.
  intros HD He. unfold frame_at. simpl.
  destruct (Z.eqb_spec D 0) as [|_]; [lia|]. simpl.
  destruct (Z.leb_spec 0 (e / D)) as [_|Hneg]; [done|].
  pose proof (Z.div_pos e D). lia.
Qed.

(** C4, for whole milliseconds.  With [N] frames, all of duration
    [D] > 0, and an elapsed time that is a whole number of milliseconds,
    one call [update(D * N)] returns, leaves the elapsed time as it was
    and writes the index of the frame the tile was at when the call
    began: a tile that showed that frame is back on it, and the whole
    state is as before the call. *)
Theorem full_cycle_returns_to_frame a ls D :
  reachable a ->
  Forall (fun frame => duration frame = D) (tileAnimationData a) ->
  0 < D ->
  let N := Z.of_nat (length (tileAnimationData a)) in
  (exists e frame,
     elapsedTime a = Num e /\
     tileAnimationData a !! Z.to_nat (e / D) = Some frame /\
     update (D * N) (a, ls) =
       (Normal tt,
        (a, set_tile_index (tile a) (tileid frame + firstgid a) ls))) /\
  (displays ls a -> update (D * N) (a, ls) = (Normal tt, (a, ls))).
Proof.
  intros Hr Hall HD0 N.
  assert (HD : cycle_of a D).
  { destruct (reachable_inv a Hr) as [(D' & frame0 & H0 & <- & HT) _].
    exists frame0.
    rewrite Forall_lookup in Hall. by rewrite <- (Hall _ _ H0) in *. }
  assert (Hpos : 0 < animationDuration a).
  { destruct HD as (frame0 & H0 & _ & ->).
    apply lookup_lt_Some in H0. nia. }
  destruct (reachable_inv a Hr) as [_ Hin].
  destruct (Hin Hpos) as (e & He & Hrange).
  assert (HT : animationDuration a = D * N)
    by (by destruct HD as (? & _ & _ & ->)).
  destruct (update_in_cycle (D * N) a ls D e) as (frame & Hframe & Hup);
    [done|done|done|lia|nia|].
  assert (Hsame : (e + D * N) mod animationDuration a = e).
  { rewrite <- HT.
    rewrite <- (Z.mul_1_l (animationDuration a)) at 1.
    rewrite Z.mod_add by lia. apply Z.mod_small. lia. }
  rewrite Hsame in Hframe, Hup.
  rewrite <- He, set_elapsedTime_id in Hup.
  split.
  - by exists e, frame.
  - intros (D' & e' & frame' & HD' & He' & Hat & Hget).
    assert (D' = D) as ->.
    { destruct HD as (f0 & H0 & <- & _), HD' as (f0' & H0' & <- & _).
      congruence. }
    assert (e' = e) as -> by congruence.
    rewrite frame_at_in_cycle in Hat by lia.
    assert (frame' = frame) as -> by congruence.
    rewrite Hup. by rewrite set_tile_index_same.
Qed.

Lemma full_cycle_returns_to_frame_witness :
  reachable Demo.animated /\
  Forall (fun frame => duration frame = 100)
         (tileAnimationData Demo.animated) /\
  0 < 100 /\
  exists e frame,
    elapsedTime Demo.animated = Num e /\
    tileAnimationData Demo.animated !! Z.to_nat (e / 100) = Some frame /\
    update (100 * Z.of_nat (length (tileAnimationData Demo.animated)))
      (Demo.animated, TilemapScene.layers Demo.scene) =
      (Normal tt,
       (Demo.animated,
        set_tile_index (tile Demo.animated)
          (tileid frame + firstgid Demo.animated)
          (TilemapScene.layers Demo.scene))).
Proof.
  assert (Hr : reachable Demo.animated)
    by (apply (reachable_new Demo.origin (Some Demo.water) 1); reflexivity).
  assert (Hall : Forall (fun frame => duration frame = 100)
                        (tileAnimationData Demo.animated))
    by (repeat constructor).
  assert (HD : 0 < 100) by reflexivity.
  repeat (split; [assumption|]).
  exact (proj1 (full_cycle_returns_to_frame Demo.animated
                  (TilemapScene.layers Demo.scene) 100 Hr Hall HD)).
Defined.

Lemma updates_in_cycle deltas : forall i a ls D e,
  cycle_of a D -> 0 < animationDuration a ->
  elapsedTime a = Num e -> 0 <= e < animationDuration a ->
  Forall (fun delta => 0 <= delta) deltas ->
  exists ls',
    forEach_from i deltas (fun delta _ => update delta) (a, ls) =
      (Normal tt,
       (set_elapsedTime a
          (Num ((e + foldr Z.add 0 deltas) mod animationDuration a)),
        ls')).
Proof.
  induction deltas as [|delta deltas IH];
    intros i a ls D e HD Hpos He Hrange Hall.
  - exists ls. simpl. rewrite Z.add_0_r, Z.mod_small by done.
    by rewrite <- He, set_elapsedTime_id.
  - apply Forall_cons in Hall as [Hdelta Hall].
    destruct (update_in_cycle delta a ls D e) as (frame & _ & Hup);
      [done|done|done|lia|done|].
    pose proof (update_cycle_of delta a ls D HD) as HD1.
    unfold exec in HD1. rewrite Hup in HD1. simpl in HD1.
    destruct (IH (Datatypes.S i)
                (set_elapsedTime a
                   (Num ((e + delta) mod animationDuration a)))
                (set_tile_index (tile a) (tileid frame + firstgid a) ls)
                D ((e + delta) mod animationDuration a))
      as (ls' & Hrest);
      [done|done|done|simpl; apply Z.mod_pos_bound; lia|done|].
    exists ls'. simpl in *. unfold bind at 1. rewrite Hup, Hrest.
    rewrite Z.add_mod_idemp_l by lia.
    by rewrite Z.add_assoc.
Qed.

(** C8.  An animated tile whose total duration is positive starts with
    elapsed time 0, and any run of [update] calls with non-negative
    deltas returns and leaves an elapsed time within
    [0, animationDuration): the sum of the deltas modulo the total
    duration. *)
Theorem elapsed_time_wraps tile0 frames gid a :
  new tile0 frames gid = Normal a ->
  0 < animationDuration a ->
  elapsedTime a = Num 0 /\
  forall deltas ls,
    Forall (fun delta => 0 <= delta) deltas ->
    exists e ls',
      updates deltas (a, ls) =
        (Normal tt, (set_elapsedTime a (Num e), ls')) /\
      e = foldr Z.add 0 deltas mod animationDuration a /\
      0 <= e < animationDuration a.
Proof.
  intros Hnew Hpos.
  destruct (new_cycle_of _ _ _ _ Hnew) as [D HD].
  apply new_Normal in Hnew as (fs & frame0 & -> & H0 & Ha).
  assert (He : elapsedTime a = Num 0) by (by subst a).
  split; [done|]. intros deltas ls Hall.
  destruct (updates_in_cycle deltas 0%nat a ls D 0) as (ls' & Hrun);
    [done|done|done|lia|done|].
  eexists _, ls'. split; [apply Hrun|]. split; [done|].
  apply Z.mod_pos_bound. lia.
Qed.

Lemma elapsed_time_wraps_witness :
  new Demo.origin (Some Demo.water) 1 = Normal Demo.animated /\
  0 < animationDuration Demo.animated /\
  elapsedTime Demo.animated = Num 0 /\
  forall deltas ls,
    Forall (fun delta => 0 <= delta) deltas ->
    exists e ls',
      updates deltas (Demo.animated, ls) =
        (Normal tt, (set_elapsedTime Demo.animated (Num e), ls')) /\
      e = foldr Z.add 0 deltas mod animationDuration Demo.animated /\
      0 <= e < animationDuration Demo.animated.
Proof.
  assert (Hnew : new Demo.origin (Some Demo.water) 1 = Normal Demo.animated)
    by reflexivity.
  assert (Hpos : 0 < animationDuration Demo.animated) by reflexivity.
  repeat (split; [assumption|]).
  exact (elapsed_time_wraps Demo.origin (Some Demo.water) 1 Demo.animated
           Hnew Hpos).
Defined.

End frame_cycle.

(** ** AnimatedTile: edge cases and a run *)

Section edge_cases.
Import AnimatedTile.
Implicit Types (a : AnimatedTile.t) (ls : list LayerData).

(** A zero total duration makes every [update] throw at the frame
    lookup, after the elapsed time has become [NaN]; the tile is not
    written. *)
Lemma update_zero_duration a ls delta frame0 :
  tileAnimationData a !! 0%nat = Some frame0 ->
  animationDuration a = 0 ->
  update delta (a, ls) = (Throw TypeError, (set_elapsedTime a NaN, ls)).
Proof.
  intros H0 HT. rewrite (update_unfold _ _ _ _ H0), HT. simpl.
  by destruct (elapsedTime a) as [z| |s].
Qed.

(** C9, as the code has it.  [new] validates nothing: it throws a
    [TypeError] when there is no first frame to read (no animation data,
    or an empty frame list), and accepts every non-empty definition,
    whatever its durations.  When the first frame's duration is 0 the
    object is built with total duration 0 and it is [update] that
    throws, at the frame lookup. *)
Theorem new_reads_first_frame_only tile0 gid :
  new tile0 None gid = Throw TypeError /\
  new tile0 (Some []) gid = Throw TypeError /\
  (forall frame0 rest,
     exists a,
       new tile0 (Some (frame0 :: rest)) gid = Normal a /\
       animationDuration a =
         duration frame0 * Z.of_nat (length (frame0 :: rest))) /\
  (forall id rest delta ls,
     exists a,
       new tile0 (Some ({| duration := 0; tileid := id |} :: rest)) gid
         = Normal a /\
       update delta (a, ls) =
         (Throw TypeError, (set_elapsedTime a NaN, ls))).
Proof.
  split; [done|]. split; [done|]. split.
  - intros frame0 rest. by eexists.
  - intros id rest delta ls. eexists. split; [done|].
    by eapply update_zero_duration.
Qed.

(** C9 as claimed fails: the one-frame definition of duration 0 is
    malformed, [new] builds the object, and the first [update] throws. *)
Lemma zero_duration_not_rejected :
  malformed Demo.frozen /\
  exists a,
    new Demo.origin (Some Demo.frozen) 1 = Normal a /\
    fst (update 16 (a, TilemapScene.layers Demo.scene)) = Throw TypeError.
Proof.
  split.
  - right. eexists. split; [reflexivity|]. simpl. lia.
  - eexists. split; reflexivity.
Qed.

(** Within the cycle every [update] returns and writes the tile: after
    the call the tile shows a frame of the animation, whatever it showed
    before. *)
Lemma update_always_writes a ls delta :
  reachable a -> 0 < animationDuration a -> 0 <= delta ->
  is_Some (get_tile ls (tile a)) ->
  exists frame,
    frame ∈ tileAnimationData a /\
    fst (update delta (a, ls)) = Normal tt /\
    get_tile (snd (exec (update delta) (a, ls))) (tile a) =
      Some {| index := tileid frame + firstgid a |}.
Proof.
  intros Hr Hpos Hdelta Hsome.
  destruct (reachable_inv a Hr) as [[D HD] Hin].
  destruct (Hin Hpos) as (e & He & Hrange).
  destruct (update_in_cycle delta a ls D e) as (frame & Hframe & Hup);
    [done|done|done|lia|done|].
  exists frame. split; [by eapply list_elem_of_lookup_2|].
  unfold exec. rewrite Hup. simpl. split; [done|].
  by apply get_set_tile_index.
Qed.

(** C10.  Every [update] of an animated tile within its cycle writes the
    tile, whatever the tile showed, and so does [update(0)]: right after
    construction it returns and writes the first frame's
    [tileid + firstgid].  In the scene of [Demo.shifted_tileset] the scan
    wraps the tile of index 1, and [update(0)] turns its index into 6: the
    tile shown changes although no time has passed. *)
Theorem update_zero_writes_first_frame tile0 frames gid a ls frame0 :
  new tile0 (Some frames) gid = Normal a ->
  frames !! 0%nat = Some frame0 ->
  duration frame0 <> 0 ->
  is_Some (get_tile ls tile0) ->
  update 0 (a, ls) =
    (Normal tt, (a, set_tile_index tile0 (tileid frame0 + gid) ls)) /\
  get_tile (snd (exec (update 0) (a, ls))) tile0 =
    Some {| index := tileid frame0 + gid |} /\
  (forall delta,
     0 < animationDuration a -> 0 <= delta ->
     exists frame,
       frame ∈ frames /\
       fst (update delta (a, ls)) = Normal tt /\
       get_tile (snd (exec (update delta) (a, ls))) tile0 =
         Some {| index := tileid frame + gid |}) /\
  (let s0 := exec (TilemapScene.create Demo.shifted_tileset) Demo.scene in
   let s1 := exec (TilemapScene.update 0 0) s0 in
   tile <$> TilemapScene.animatedTiles s0 = [Demo.origin] /\
   get_tile (TilemapScene.layers s0) Demo.origin = Some {| index := 1 |} /\
   get_tile (TilemapScene.layers s1) Demo.origin = Some {| index := 6 |}).
Proof.
  intros Hnew H0 HD Hsome.
  pose proof (reachable_new _ _ _ _ Hnew) as Hr.
  apply new_Normal in Hnew as (fs & frame0' & [= <-] & H0' & ->).
  assert (frame0' = frame0) as -> by congruence.
  assert (Hup : update 0
            ({| tile := tile0; tileAnimationData := frames;
                firstgid := gid; elapsedTime := Num 0;
                animationDuration :=
                  duration frame0 * Z.of_nat (length frames) |}, ls) =
          (Normal tt,
           ({| tile := tile0; tileAnimationData := frames;
               firstgid := gid; elapsedTime := Num 0;
               animationDuration :=
                 duration frame0 * Z.of_nat (length frames) |},
            set_tile_index tile0 (tileid frame0 + gid) ls))).
  { rewrite (update_unfold _ _ _ frame0) by done. simpl.
    assert (Hlen : (0 < length frames)%nat) by (by eapply lookup_lt_Some).
    destruct (Z.eqb_spec (duration frame0 * Z.of_nat (length frames)) 0)
      as [|_]; [nia|].
    rewrite Z.rem_0_l by nia. simpl.
    destruct (Z.eqb_spec (duration frame0) 0) as [|_]; [done|].
    rewrite Z.div_0_l by done. simpl.
    change (Z.to_nat 0) with 0%nat. by rewrite H0. }
  split; [done|]. split; [|split].
  - unfold exec. rewrite Hup. simpl. by apply get_set_tile_index.
  - intros delta Hpos Hdelta.
    by apply (update_always_writes _ ls delta Hr).
  - vm_compute. done.
Qed.

Lemma update_zero_writes_first_frame_witness :
  new Demo.origin (Some Demo.water) 1 = Normal Demo.animated /\
  Demo.water !! 0%nat = Some {| duration := 100; tileid := 0 |} /\
  100 <> 0 /\
  is_Some (get_tile (TilemapScene.layers Demo.scene) Demo.origin) /\
  update 0 (Demo.animated, TilemapScene.layers Demo.scene) =
    (Normal tt,
     (Demo.animated,
      set_tile_index Demo.origin (0 + 1) (TilemapScene.layers Demo.scene))).
Proof.
  assert (Hnew : new Demo.origin (Some Demo.water) 1 = Normal Demo.animated)
    by reflexivity.
  assert (H0 : Demo.water !! 0%nat = Some {| duration := 100; tileid := 0 |})
    by reflexivity.
  assert (HD : 100 <> 0) by (intros H; discriminate H).
  assert (Hsome : is_Some (get_tile (TilemapScene.layers Demo.scene)
                             Demo.origin))
    by (eexists; reflexivity).
  repeat (split; [assumption|]).
  exact (proj1 (update_zero_writes_first_frame Demo.origin Demo.water 1
                  Demo.animated (TilemapScene.layers Demo.scene)
                  {| duration := 100; tileid := 0 |} Hnew H0 HD Hsome)).
Defined.

(** C2.  The animation of three frames of 100 ms showing local tiles 0,
    1, 2, with [firstgid] 1: a new animated tile has elapsed time 0;
    [update(150)] leaves elapsed time 150 and writes index 2 (frame 1);
    a further [update(200)] leaves elapsed time 50 and writes index 1
    (frame 0).  So it goes in the scene of [Demo.tileset], from the scan
    on. *)
Theorem three_frame_scenario :
  (forall tile0 ls,
     exists a a150 a50,
       new tile0 (Some Demo.water) 1 = Normal a /\
       elapsedTime a = Num 0 /\
       update 150 (a, ls) = (Normal tt, (a150, set_tile_index tile0 2 ls)) /\
       elapsedTime a150 = Num 150 /\
       Number.floor_div (elapsedTime a150) (Num 100) = Num 1 /\
       update 200 (a150, set_tile_index tile0 2 ls) =
         (Normal tt,
          (a50, set_tile_index tile0 1 (set_tile_index tile0 2 ls))) /\
       elapsedTime a50 = Num 50 /\
       Number.floor_div (elapsedTime a50) (Num 100) = Num 0) /\
  (let s0 := exec (TilemapScene.create Demo.tileset) Demo.scene in
   let s1 := exec (TilemapScene.update 0 150) s0 in
   let s2 := exec (TilemapScene.update 150 200) s1 in
   get_tile (TilemapScene.layers s0) Demo.origin = Some {| index := 1 |} /\
   elapsedTime <$> TilemapScene.animatedTiles s0 = [Num 0] /\
   get_tile (TilemapScene.layers s1) Demo.origin = Some {| index := 2 |} /\
   elapsedTime <$> TilemapScene.animatedTiles s1 = [Num 150] /\
   get_tile (TilemapScene.layers s2) Demo.origin = Some {| index := 1 |} /\
   elapsedTime <$> TilemapScene.animatedTiles s2 = [Num 50]).
Proof.
  split.
  - intros tile0 ls.
    set (a := {| tile := tile0; tileAnimationData := Demo.water;
                 firstgid := 1; elapsedTime := Num 0;
                 animationDuration := 300 |}).
    exists a, (set_elapsedTime a (Num 150)), (set_elapsedTime a (Num 50)).
    repeat split; reflexivity.
  - vm_compute. done.
Qed.

End edge_cases.

(** ** Loops *)

Section loops.
Context {S A : Type}.
Implicit Types (I : S -> Prop) (f : A -> nat -> M S unit).

(** A property that every call of the body keeps, returning or
    throwing, holds when the loop ends. *)
Lemma forEach_from_inv I xs f : forall i s,
  (forall x j s', xs !! j = Some x -> I s' -> I (exec (f x (i + j)%nat) s')) ->
  I s -> I (exec (forEach_from i xs f) s).
Proof.
  induction xs as [|x xs IH]; intros i s Hbody Hs; [done|].
  unfold exec in *. simpl. unfold bind.
  pose proof (Hbody x 0%nat s eq_refl Hs) as Hx.
  rewrite Nat.add_0_r in Hx.
  destruct (f x i s) as [[[]|e] s1]; simpl in Hx; [|done].
  apply IH; [|done].
  intros y j s' Hy Hs'. specialize (Hbody y (Datatypes.S j) s' Hy Hs').
  by rewrite Nat.add_succ_r in Hbody.
Qed.

Lemma forEach_inv I xs f s :
  (forall x j s', xs !! j = Some x -> I s' -> I (exec (f x j) s')) ->
  I s -> I (exec (forEach xs f) s).
Proof. intros Hbody. by apply forEach_from_inv. Qed.

(** When the loop returns, every call of the body returned, from a state
    in which the property held. *)
Lemma forEach_from_returns I xs f : forall i s,
  (forall x j s', xs !! j = Some x -> I s' -> I (exec (f x (i + j)%nat) s')) ->
  I s ->
  fst (forEach_from i xs f s) = Normal tt ->
  forall j x, xs !! j = Some x ->
    exists s', I s' /\ fst (f x (i + j)%nat s') = Normal tt.
Proof.
  induction xs as [|y xs IH]; intros i s Hbody Hs Hret j x Hx; [done|].
  simpl in Hret. unfold bind in Hret.
  pose proof (Hbody y 0%nat s eq_refl Hs) as Hy.
  rewrite Nat.add_0_r in Hy. unfold exec in Hy.
  destruct (f y i s) as [[[]|e] s1] eqn:Hcall; simpl in Hy; [|done].
  destruct j as [|j].
  - injection Hx as ->. exists s. rewrite Nat.add_0_r, Hcall. done.
  - rewrite Nat.add_succ_r. apply (IH (Datatypes.S i) s1); [|done..].
    intros z k s' Hz Hs'. specialize (Hbody z (Datatypes.S k) s' Hz Hs').
    by rewrite Nat.add_succ_r in Hbody.
Qed.

Lemma forEach_returns I xs f s :
  (forall x j s', xs !! j = Some x -> I s' -> I (exec (f x j) s')) ->
  I s ->
  fst (forEach xs f s) = Normal tt ->
  forall j x, xs !! j = Some x ->
    exists s', I s' /\ fst (f x j s') = Normal tt.
Proof. intros Hbody. by apply forEach_from_returns. Qed.

(** Two loops whose bodies, call for call, complete alike and keep two
    states related, complete alike and keep them related. *)
Lemma forEach_from_rel (R : S -> S -> Prop) f f' xs : forall xs' i s s',
  length xs = length xs' ->
  (forall j x x' t t',
     xs !! j = Some x -> xs' !! j = Some x' -> R t t' ->
     fst (f x (i + j)%nat t) = fst (f' x' (i + j)%nat t') /\
     R (exec (f x (i + j)%nat) t) (exec (f' x' (i + j)%nat) t')) ->
  R s s' ->
  fst (forEach_from i xs f s) = fst (forEach_from i xs' f' s') /\
  R (exec (forEach_from i xs f) s) (exec (forEach_from i xs' f') s').
Proof.
  induction xs as [|x xs IH]; intros [|x' xs'] i s s' Hlen Hbody HR;
    try done.
  simpl. unfold exec, bind.
  pose proof (Hbody 0%nat x x' s s' eq_refl eq_refl HR) as [Hfst HR1].
  rewrite Nat.add_0_r in Hfst, HR1. unfold exec in HR1.
  destruct (f x i s) as [[[]|e] s1], (f' x' i s') as [[[]|e'] s1'];
    simpl in *; try done.
  apply IH; [lia| |done].
  intros j y y' t t' Hy Hy' Ht.
  specialize (Hbody (Datatypes.S j) y y' t t' Hy Hy' Ht).
  by rewrite Nat.add_succ_r in Hbody.
Qed.

End loops.

(** ** The scan of [create] *)

Section scan.
Import TilemapScene.
Implicit Types (this : TilemapScene.t) (tileset : Tileset).

Lemma scan_inv_start tileset this0 : scan_inv tileset this0 this0.
Proof. split; [done|]. exists []. by rewrite app_nil_r. Qed.

(** [create] is the loop over the keys with the callbacks named. *)
Lemma create_visit tileset :
  create tileset =
  forEach (own_keys (tileData tileset))
          (fun tileid0 _ => visit_key tileset tileid0).
Proof. reflexivity. Qed.

Lemma visit_tile_inv tileset this0 tileid0 layer l tileRow r tile0 c this :
  layers this0 !! l = Some layer ->
  is_static layer = false ->
  data layer !! r = Some tileRow ->
  tileRow !! c = Some tile0 ->
  scan_inv tileset this0 this ->
  scan_inv tileset this0 (exec (visit_tile tileset tileid0 l r tile0 c) this).
Proof.
  intros Hl Hdyn Hr Hc Hinv. unfold visit_tile.
  destruct (Z.eqb_spec (index tile0 - firstgid tileset) (parseInt tileid0))
    as [Hmatch|_]; [|done].
  unfold exec, bind, lift. simpl.
  destruct (tileData tileset !! tileid0) as [entry|] eqn:Hentry; [simpl|done].
  destruct (AnimatedTile.new _ (animation entry) _) as [a|e] eqn:Hnew;
    [simpl|done].
  destruct Hinv as [Hls (added & Hats & Hadded)].
  split; [done|]. exists (added ++ [a]). simpl.
  split; [by rewrite Hats, app_assoc|].
  apply Forall_app. split; [done|]. apply Forall_singleton.
  pose proof Hnew as (fs & frame0 & Hfs & _ & Ha)%new_Normal.
  assert (Htile : AnimatedTile.tile a =
                  {| ref_layer := l; ref_row := r; ref_col := c |})
    by (by subst a).
  exists tileid0, entry, fs. rewrite Htile.
  split; [done|]. split; [done|]. split; [|by rewrite <- Hfs].
  by exists layer, tileRow, tile0.
Qed.

Lemma visit_row_inv tileset this0 tileid0 layer l tileRow r this :
  layers this0 !! l = Some layer ->
  is_static layer = false ->
  data layer !! r = Some tileRow ->
  scan_inv tileset this0 this ->
  scan_inv tileset this0 (exec (visit_row tileset tileid0 l tileRow r) this).
Proof.
  intros Hl Hdyn Hr. apply (forEach_inv (scan_inv tileset this0)).
  intros tile0 c this' Hc. by eapply visit_tile_inv.
Qed.

Lemma visit_layer_inv tileset this0 tileid0 layer l this :
  layers this0 !! l = Some layer ->
  scan_inv tileset this0 this ->
  scan_inv tileset this0 (exec (visit_layer tileset tileid0 layer l) this).
Proof.
  intros Hl. unfold visit_layer.
  destruct (is_static layer) eqn:Hstatic; [done|].
  apply (forEach_inv (scan_inv tileset this0)).
  intros tileRow r this' Hr. by eapply visit_row_inv.
Qed.

Lemma visit_key_inv tileset this0 tileid0 this :
  scan_inv tileset this0 this ->
  scan_inv tileset this0 (exec (visit_key tileset tileid0) this).
Proof.
  intros Hinv. unfold visit_key, exec, bind, gets. simpl.
  pose proof Hinv as [Hls _]. rewrite Hls.
  apply (forEach_inv (scan_inv tileset this0)); [|done].
  intros layer l this' Hl. by apply visit_layer_inv.
Qed.

(** Whether [create] returns or throws, it leaves the layers as they
    were and has pushed only animated tiles built for matching tiles of
    layers that are not static. *)
Lemma create_inv tileset this :
  scan_inv tileset this (exec (create tileset) this).
Proof.
  rewrite create_visit.
  apply (forEach_inv (scan_inv tileset this)); [|apply scan_inv_start].
  intros tileid0 _ this' _. apply visit_key_inv.
Qed.

Lemma own_keys_lookup tileset tileid0 :
  tileid0 ∈ own_keys (tileData tileset) <->
  is_Some (tileData tileset !! tileid0).
Proof.
  unfold own_keys. rewrite merge_sort_Permutation.
  change (map fst (map_to_list (tileData tileset)))
    with ((map_to_list (tileData tileset)).*1).
  rewrite list_elem_of_fmap. split.
  - intros ([k entry] & -> & Hin%elem_of_map_to_list). by exists entry.
  - intros [entry Hentry]. exists (tileid0, entry).
    split; [done|]. by apply elem_of_map_to_list.
Qed.

Lemma elem_of_collect_from {A B} (g : A -> nat -> list B) b xs : forall i,
  b ∈ collect_from i xs g <->
  exists j x, xs !! j = Some x /\ b ∈ g x (i + j)%nat.
Proof.
  induction xs as [|x xs IH]; intros i; simpl.
  - split; [by intros ?%elem_of_nil|]. by intros (j & y & ? & _).
  - rewrite elem_of_app, IH. split.
    + intros [Hb|(j & y & Hy & Hb)].
      * exists 0%nat, x. by rewrite Nat.add_0_r.
      * exists (Datatypes.S j), y. by rewrite Nat.add_succ_r.
    + intros ([|j] & y & Hy & Hb).
      * left. rewrite Nat.add_0_r in Hb. by injection Hy as ->.
      * right. exists j, y. by rewrite Nat.add_succ_r in Hb.
Qed.

Lemma elem_of_collect {A B} (g : A -> nat -> list B) b xs :
  b ∈ collect xs g <-> exists j x, xs !! j = Some x /\ b ∈ g x j.
Proof. apply elem_of_collect_from. Qed.

(** The pure scan lists exactly the animated tiles of the matching
    tiles whose entries carry a first frame. *)
Lemma elem_of_scan tileset ls a :
  a ∈ scan tileset ls <-> scanned tileset ls a.
Proof.
  unfold scan. rewrite elem_of_collect. split.
  - intros (_ & tileid0 & _ & Ha).
    apply elem_of_collect in Ha as (l & layer & Hl & Ha).
    destruct (is_static layer) eqn:Hstatic; [by apply elem_of_nil in Ha|].
    apply elem_of_collect in Ha as (r & tileRow & Hr & Ha).
    apply elem_of_collect in Ha as (c & tile0 & Hc & Ha).
    destruct (Z.eqb_spec (index tile0 - firstgid tileset) (parseInt tileid0))
      as [Hmatch|_]; [|by apply elem_of_nil in Ha].
    destruct (tileData tileset !! tileid0) as [entry|] eqn:Hentry;
      [|by apply elem_of_nil in Ha].
    destruct (AnimatedTile.new _ (animation entry) _) as [a'|e] eqn:Hnew;
      [|by apply elem_of_nil in Ha].
    apply list_elem_of_singleton in Ha as ->.
    pose proof Hnew as (fs & frame0 & Hfs & _ & Ha)%new_Normal.
    assert (Htile : AnimatedTile.tile a' =
                    {| ref_layer := l; ref_row := r; ref_col := c |})
      by (by subst a').
    exists tileid0, entry, fs. rewrite Htile.
    split; [done|]. split; [done|]. split; [|by rewrite <- Hfs].
    by exists layer, tileRow, tile0.
  - intros (tileid0 & entry & frames & Hentry & Hanim & Hm & Hnew).
    destruct Hm as (layer & tileRow & tile0 & Hl & Hdyn & Hr & Hc & Hmatch).
    assert (Hkey : tileid0 ∈ own_keys (tileData tileset))
      by (by apply own_keys_lookup).
    apply list_elem_of_lookup in Hkey as [j Hj].
    exists j, tileid0. split; [done|].
    apply elem_of_collect. exists (ref_layer (AnimatedTile.tile a)), layer.
    split; [done|]. rewrite Hdyn.
    apply elem_of_collect. exists (ref_row (AnimatedTile.tile a)), tileRow.
    split; [done|].
    apply elem_of_collect. exists (ref_col (AnimatedTile.tile a)), tile0.
    split; [done|].
    rewrite Hmatch, Z.eqb_refl, Hentry, Hanim.
    destruct (AnimatedTile.tile a) as [l r c] eqn:Htile. simpl in *.
    rewrite Hnew. by apply list_elem_of_singleton.
Qed.

(** *** One animated tile per placed tile *)

Lemma scan_levels tileset ls :
  scan tileset ls =
  collect (own_keys (tileData tileset))
          (fun tileid0 _ => scan_key tileset ls tileid0).
Proof. reflexivity. Qed.

Lemma NoDup_own_keys tileset : NoDup (own_keys (tileData tileset)).
Proof.
  unfold own_keys. rewrite merge_sort_Permutation.
  apply NoDup_fst_map_to_list.
Qed.

(** The images under [h] of what a loop collects are distinct when they
    are so within each body's list and no two bodies share an image. *)
Lemma NoDup_fmap_collect_from {A B C} (h : B -> C) (g : A -> nat -> list B)
    xs : forall i,
  (forall j x, xs !! j = Some x -> NoDup (h <$> g x (i + j)%nat)) ->
  (forall j1 j2 x1 x2 b1 b2,
     xs !! j1 = Some x1 -> xs !! j2 = Some x2 ->
     b1 ∈ g x1 (i + j1)%nat -> b2 ∈ g x2 (i + j2)%nat ->
     h b1 = h b2 -> j1 = j2) ->
  NoDup (h <$> collect_from i xs g).
Proof.
  induction xs as [|x xs IH]; intros i Hbody Hapart; simpl.
  - apply NoDup_nil_2.
  - rewrite fmap_app. apply NoDup_app. split; [|split].
    + specialize (Hbody 0%nat x eq_refl). by rewrite Nat.add_0_r in Hbody.
    + intros c (b1 & -> & Hb1)%list_elem_of_fmap
        (b2 & Heq & Hb2)%list_elem_of_fmap.
      apply elem_of_collect_from in Hb2 as (j & y & Hy & Hb2).
      rewrite Nat.add_succ_l, <- Nat.add_succ_r in Hb2.
      assert (H0 : 0%nat = Datatypes.S j); [|done].
      apply (Hapart 0%nat (Datatypes.S j) x y b1 b2); try done.
      by rewrite Nat.add_0_r.
    + apply IH.
      * intros j y Hy. specialize (Hbody (Datatypes.S j) y Hy).
        by rewrite Nat.add_succ_r in Hbody.
      * intros j1 j2 x1 x2 b1 b2 H1 H2 Hb1 Hb2 Heq.
        rewrite Nat.add_succ_l, <- Nat.add_succ_r in Hb1, Hb2.
        assert (Datatypes.S j1 = Datatypes.S j2); [|lia].
        by apply (Hapart (Datatypes.S j1) (Datatypes.S j2) x1 x2 b1 b2).
Qed.

Lemma elem_of_scan_tile tileset tileid0 l r tile0 c a :
  a ∈ scan_tile tileset tileid0 l r tile0 c ->
  AnimatedTile.tile a = {| ref_layer := l; ref_row := r; ref_col := c |} /\
  index tile0 - firstgid tileset = parseInt tileid0 /\
  scan_tile tileset tileid0 l r tile0 c = [a].
Proof.
  unfold scan_tile. intros Ha.
  destruct (Z.eqb_spec (index tile0 - firstgid tileset) (parseInt tileid0))
    as [Hmatch|_]; [|by apply elem_of_nil in Ha].
  destruct (tileData tileset !! tileid0) as [entry|];
    [|by apply elem_of_nil in Ha].
  destruct (AnimatedTile.new _ (animation entry) _) as [a'|e] eqn:Hnew;
    [|by apply elem_of_nil in Ha].
  apply list_elem_of_singleton in Ha as ->.
  apply new_Normal in Hnew as (fs & frame0 & _ & _ & ->). done.
Qed.

Lemma elem_of_scan_row tileset tileid0 l tileRow r a :
  a ∈ scan_row tileset tileid0 l tileRow r ->
  ref_layer (AnimatedTile.tile a) = l /\
  ref_row (AnimatedTile.tile a) = r /\
  exists tile0,
    tileRow !! ref_col (AnimatedTile.tile a) = Some tile0 /\
    index tile0 - firstgid tileset = parseInt tileid0.
Proof.
  intros (c & tile0 & Hc & Ha)%elem_of_collect.
  apply elem_of_scan_tile in Ha as (-> & Hmatch & _). simpl. eauto.
Qed.

Lemma elem_of_scan_layer tileset tileid0 layer l a :
  a ∈ scan_layer tileset tileid0 layer l ->
  ref_layer (AnimatedTile.tile a) = l /\
  is_static layer = false /\
  exists tileRow tile0,
    data layer !! ref_row (AnimatedTile.tile a) = Some tileRow /\
    tileRow !! ref_col (AnimatedTile.tile a) = Some tile0 /\
    index tile0 - firstgid tileset = parseInt tileid0.
Proof.
  unfold scan_layer.
  destruct (is_static layer); [by intros ?%elem_of_nil|].
  intros (r & tileRow & Hr & Ha)%elem_of_collect.
  apply elem_of_scan_row in Ha as (Hl & <- & tile0 & Hc & Hmatch). eauto 10.
Qed.

Lemma elem_of_scan_key tileset ls tileid0 a :
  a ∈ scan_key tileset ls tileid0 ->
  matches tileset ls tileid0 (AnimatedTile.tile a).
Proof.
  intros (l & layer & Hl & Ha)%elem_of_collect.
  apply elem_of_scan_layer in Ha
    as (<- & Hdyn & tileRow & tile0 & Hr & Hc & Hmatch).
  by exists layer, tileRow, tile0.
Qed.

(** A placed tile matches one key at most. *)
Lemma matches_key tileset ls tileid1 tileid2 r :
  matches tileset ls tileid1 r -> matches tileset ls tileid2 r ->
  tileid1 = tileid2.
Proof.
  intros (layer1 & row1 & tile1 & Hl1 & _ & Hr1 & Hc1 & Hm1)
         (layer2 & row2 & tile2 & Hl2 & _ & Hr2 & Hc2 & Hm2).
  assert (layer2 = layer1) as -> by congruence.
  assert (row2 = row1) as -> by congruence.
  assert (tile2 = tile1) as -> by congruence.
  unfold parseInt in *. lia.
Qed.

(** The scan builds at most one animated tile for a placed tile. *)
Lemma NoDup_scan tileset ls :
  NoDup (AnimatedTile.tile <$> scan tileset ls).
Proof.
  rewrite scan_levels. apply NoDup_fmap_collect_from.
  - intros _ tileid0 _. apply NoDup_fmap_collect_from.
    + intros l layer _. unfold scan_layer.
      destruct (is_static layer); [apply NoDup_nil_2|].
      apply NoDup_fmap_collect_from.
      * intros r tileRow _. apply NoDup_fmap_collect_from.
        -- intros c tile0 _. simpl.
           destruct (scan_tile tileset tileid0 l r tile0 c)
             as [|a [|a' rest]] eqn:Hscan;
             [apply NoDup_nil_2|apply NoDup_singleton|].
           assert (Ha : a ∈ scan_tile tileset tileid0 l r tile0 c)
             by (rewrite Hscan; apply list_elem_of_here).
           apply elem_of_scan_tile in Ha as (_ & _ & Hone). congruence.
        -- intros c1 c2 tile1 tile2 b1 b2 _ _ Hb1 Hb2 Heq.
           apply elem_of_scan_tile in Hb1 as (H1 & _).
           apply elem_of_scan_tile in Hb2 as (H2 & _).
           rewrite H1, H2 in Heq. simpl in Heq. injection Heq. lia.
      * intros r1 r2 row1 row2 b1 b2 _ _ Hb1 Hb2 Heq.
        apply elem_of_scan_row in Hb1 as (_ & H1 & _).
        apply elem_of_scan_row in Hb2 as (_ & H2 & _).
        rewrite Heq in H1. lia.
    + intros l1 l2 layer1 layer2 b1 b2 _ _ Hb1 Hb2 Heq.
      apply elem_of_scan_layer in Hb1 as (H1 & _).
      apply elem_of_scan_layer in Hb2 as (H2 & _).
      rewrite Heq in H1. lia.
  - intros j1 j2 tileid1 tileid2 b1 b2 Hj1 Hj2 Hb1 Hb2 Heq. simpl in *.
    apply elem_of_scan_key in Hb1, Hb2. rewrite Heq in Hb1.
    assert (tileid1 = tileid2) as -> by (by eapply matches_key).
    by eapply NoDup_lookup; [apply NoDup_own_keys|..].
Qed.

Lemma forEach_from_pushes {A} ls xs (f : A -> nat -> M t unit) g : forall i,
  (forall x j, xs !! j = Some x ->
               pushes_on ls (f x (i + j)%nat) (g x (i + j)%nat)) ->
  pushes_on ls (forEach_from i xs f) (collect_from i xs g).
Proof.
  induction xs as [|x xs IH]; intros i Hbody this Hls; simpl.
  - unfold ret. rewrite app_nil_r. by destruct this.
  - unfold bind.
    pose proof (Hbody x 0%nat eq_refl this Hls) as Hx.
    rewrite Nat.add_0_r in Hx. rewrite Hx.
    rewrite (IH (Datatypes.S i)); [|..|done].
    + simpl. unfold set_animatedTiles. simpl. by rewrite app_assoc.
    + intros y j Hy. specialize (Hbody y (Datatypes.S j) Hy).
      by rewrite Nat.add_succ_r in Hbody.
Qed.

Lemma forEach_pushes {A} ls xs (f : A -> nat -> M t unit) g :
  (forall x j, xs !! j = Some x -> pushes_on ls (f x j) (g x j)) ->
  pushes_on ls (forEach xs f) (collect xs g).
Proof. intros Hbody. by apply forEach_from_pushes. Qed.

(** When every matching tile shows a local tile whose entry carries a
    first frame, [create] returns and has pushed the pure scan. *)
Lemma create_scan tileset this :
  matched_entries_animated tileset (layers this) ->
  create tileset this =
    (Normal tt,
     set_animatedTiles this
       (animatedTiles this ++ scan tileset (layers this))).
Proof.
  intros Hwf. unfold create, scan.
  apply (forEach_pushes (layers this)); [|done].
  intros tileid0 j Hkey this1 Hls1.
  assert (Hentry : is_Some (tileData tileset !! tileid0)).
  { apply own_keys_lookup. by eapply list_elem_of_lookup_2. }
  destruct Hentry as [entry Hentry].
  unfold bind at 1. unfold gets. simpl. rewrite Hls1.
  apply (forEach_pushes (layers this)); [|done].
  intros layer l Hl this2 Hls2.
  destruct (is_static layer) eqn:Hstatic.
  { unfold ret. rewrite app_nil_r. by destruct this2. }
  apply (forEach_pushes (layers this)); [|done].
  intros tileRow r Hr.
  apply forEach_pushes.
  intros tile0 c Hc this4 Hls4.
  destruct (Z.eqb_spec (index tile0 - firstgid tileset) (parseInt tileid0))
    as [Hmatch|_].
  - rewrite Hentry.
    destruct (Hwf tileid0 entry
                {| ref_layer := l; ref_row := r; ref_col := c |} Hentry)
      as (frame0 & rest & Hanim).
    { by exists layer, tileRow, tile0. }
    unfold bind, lift, push, modify. simpl. by rewrite Hanim.
  - unfold ret. rewrite app_nil_r. by destruct this4.
Qed.

(** The innermost callback returns at a matching tile only if the entry
    of the key carries a first frame. *)
Lemma visit_tile_returns tileset tileid0 l r tile0 c this entry :
  fst (visit_tile tileset tileid0 l r tile0 c this) = Normal tt ->
  index tile0 - firstgid tileset = parseInt tileid0 ->
  tileData tileset !! tileid0 = Some entry ->
  exists frame0 rest, animation entry = Some (frame0 :: rest).
Proof.
  unfold visit_tile. intros Hret Hmatch Hentry.
  rewrite Hmatch, Z.eqb_refl in Hret.
  unfold bind, lift in Hret. rewrite Hentry in Hret. simpl in Hret.
  destruct (animation entry) as [[|frame0 rest]|]; [done|by eauto|done].
Qed.

(** [create] returns only if every matching tile shows a local tile whose
    entry carries a first frame: it throws at the first one that does
    not. *)
Lemma create_returns tileset this :
  fst (create tileset this) = Normal tt ->
  matched_entries_animated tileset (layers this).
Proof.
  intros Hret tileid0 entry r Hentry
    (layer & tileRow & tile0 & Hl & Hdyn & Hr & Hc & Hmatch).
  rewrite create_visit in Hret.
  assert (Hkey : tileid0 ∈ own_keys (tileData tileset))
    by (apply own_keys_lookup; eauto).
  apply list_elem_of_lookup in Hkey as [j Hj].
  destruct (forEach_returns (scan_inv tileset this) _ _ _
              (fun k _ this' _ => visit_key_inv tileset this k this')
              (scan_inv_start tileset this) Hret _ _ Hj)
    as (this1 & Hinv1 & Hret1).
  unfold visit_key, bind, gets in Hret1. simpl in Hret1.
  pose proof Hinv1 as [Hls1 _]. rewrite Hls1 in Hret1.
  destruct (forEach_returns (scan_inv tileset this) _ _ _
              (fun layer' l' this' Hl' =>
                 visit_layer_inv tileset this tileid0 layer' l' this' Hl')
              Hinv1 Hret1 _ _ Hl)
    as (this2 & Hinv2 & Hret2).
  unfold visit_layer in Hret2. rewrite Hdyn in Hret2.
  destruct (forEach_returns (scan_inv tileset this) _ _ _
              (fun tileRow' r' this' Hr' =>
                 visit_row_inv tileset this tileid0 layer _ tileRow' r' this'
                   Hl Hdyn Hr')
              Hinv2 Hret2 _ _ Hr)
    as (this3 & Hinv3 & Hret3).
  destruct (forEach_returns (scan_inv tileset this) _ _ _
              (fun tile' c' this' Hc' =>
                 visit_tile_inv tileset this tileid0 layer _ tileRow _
                   tile' c' this' Hl Hdyn Hr Hc')
              Hinv3 Hret3 _ _ Hc)
    as (this4 & _ & Hret4).
  by eapply visit_tile_returns.
Qed.

(** *** The scan does not read static layers *)

Lemma visit_tile_layers tileset tileid0 l r tile0 c this :
  layers (exec (visit_tile tileset tileid0 l r tile0 c) this) = layers this.
Proof.
  unfold visit_tile, exec, bind, lift.
  destruct (_ =? _); [|done].
  destruct (tileData tileset !! tileid0) as [entry|]; [simpl|done].
  by destruct (AnimatedTile.new _ _ _).
Qed.

Lemma visit_layer_layers tileset tileid0 layer l this :
  layers (exec (visit_layer tileset tileid0 layer l) this) = layers this.
Proof.
  unfold visit_layer. destruct (is_static layer); [done|].
  apply (forEach_inv (fun this' => layers this' = layers this)); [|done].
  intros tileRow r this1 _ H1. unfold visit_row.
  apply (forEach_inv (fun this' => layers this' = layers this)); [|done].
  intros tile0 c this2 _ H2. by rewrite visit_tile_layers.
Qed.

Lemma visit_tile_rel tileset tileid0 l r tile0 c this this' :
  same_tiles this this' ->
  fst (visit_tile tileset tileid0 l r tile0 c this) =
  fst (visit_tile tileset tileid0 l r tile0 c this') /\
  same_tiles (exec (visit_tile tileset tileid0 l r tile0 c) this)
             (exec (visit_tile tileset tileid0 l r tile0 c) this').
Proof.
  unfold same_tiles, visit_tile, exec, bind, lift. intros Hsame.
  destruct (_ =? _); [|done].
  destruct (tileData tileset !! tileid0) as [entry|]; [simpl|done].
  destruct (AnimatedTile.new _ _ _); [simpl|done]. by rewrite Hsame.
Qed.

Lemma visit_layer_rel tileset tileid0 layer l this this' :
  same_tiles this this' ->
  fst (visit_layer tileset tileid0 layer l this) =
  fst (visit_layer tileset tileid0 layer l this') /\
  same_tiles (exec (visit_layer tileset tileid0 layer l) this)
             (exec (visit_layer tileset tileid0 layer l) this').
Proof.
  unfold visit_layer. destruct (is_static layer); [done|].
  apply (forEach_from_rel same_tiles); [done|].
  intros r tileRow tileRow' this1 this1' Hr Hr'.
  assert (tileRow' = tileRow) as -> by congruence. unfold visit_row.
  apply (forEach_from_rel same_tiles); [done|].
  intros c tile0 tile0' this2 this2' Hc Hc'.
  assert (tile0' = tile0) as -> by congruence. apply visit_tile_rel.
Qed.

(** Scenes that hold the same animated tiles and whose layers agree except
    for the content of static layers come out of [create] with the same
    completion and the same animated tiles. *)
Lemma create_same_dynamic tileset this this' :
  same_tiles this this' ->
  same_dynamic (layers this) (layers this') ->
  fst (create tileset this) = fst (create tileset this') /\
  same_tiles (exec (create tileset) this) (exec (create tileset) this').
Proof.
  intros Hsame [Hlen Hdyn]. rewrite create_visit.
  set (R := fun s s' : TilemapScene.t =>
              same_tiles s s' /\
              layers s = layers this /\ layers s' = layers this').
  assert (HR : R this this') by done.
  enough (Hgoal :
    fst (forEach (own_keys (tileData tileset))
           (fun tileid0 _ => visit_key tileset tileid0) this) =
    fst (forEach (own_keys (tileData tileset))
           (fun tileid0 _ => visit_key tileset tileid0) this') /\
    R (exec (forEach (own_keys (tileData tileset))
               (fun tileid0 _ => visit_key tileset tileid0)) this)
      (exec (forEach (own_keys (tileData tileset))
               (fun tileid0 _ => visit_key tileset tileid0)) this'))
    by (destruct Hgoal as [? [? _]]; done).
  apply (forEach_from_rel R); [done| |done].
  intros j tileid0 tileid0' this1 this1' Hj Hj' (Hsame1 & Hls1 & Hls1').
  assert (tileid0' = tileid0) as -> by congruence.
  unfold visit_key, exec, bind, gets. simpl. rewrite Hls1, Hls1'.
  apply (forEach_from_rel R); [done| |done].
  intros l layer layer' this2 this2' Hl Hl' (Hsame2 & Hls2 & Hls2').
  simpl. unfold R. rewrite !visit_layer_layers.
  destruct (Hdyn l layer layer' Hl Hl') as [<-|[Hs Hs']].
  - destruct (visit_layer_rel tileset tileid0 layer l this2 this2' Hsame2).
    done.
  - unfold visit_layer. by rewrite Hs, Hs'.
Qed.

End scan.

(** ** The driver, frame after frame *)

Section driver.
Import TilemapScene.
Implicit Types (this : TilemapScene.t) (tileset : Tileset).
Implicit Types (ls : list LayerData).

(** An [update] of an animated tile writes its own tile or nothing. *)
Lemma update_grid delta a ls :
  snd (exec (AnimatedTile.update delta) (a, ls)) = ls \/
  exists v,
    snd (exec (AnimatedTile.update delta) (a, ls)) =
    set_tile_index (AnimatedTile.tile a) v ls.
Proof.
  unfold exec.
  destruct (AnimatedTile.tileAnimationData a !! 0%nat) as [frame0|] eqn:H0.
  - rewrite (update_unfold _ _ _ _ H0). simpl.
    destruct (array_get _ _); simpl; eauto.
  - rewrite (update_no_frames _ _ _ H0). by left.
Qed.

Lemma update_tile_inv ls0 i delta this :
  driver_inv ls0 this -> driver_inv ls0 (exec (update_tile i delta) this).
Proof.
  intros (Hstatic & Htypes & Hrefs). unfold exec, update_tile.
  destruct (animatedTiles this !! i) as [a|] eqn:Ha; [|done].
  pose proof (update_fields delta a (layers this)) as (Htile & _).
  pose proof (update_grid delta a (layers this)) as Hgrid.
  unfold exec in Htile, Hgrid.
  destruct (AnimatedTile.update delta (a, layers this)) as [c [a' ls']].
  simpl in *.
  assert (Hdyn : exists layer,
             ls0 !! ref_layer (AnimatedTile.tile a) = Some layer /\
             is_static layer = false)
    by (by eapply (Forall_lookup_1 _ _ _ _ Hrefs)).
  split; [|split].
  - intros l layer Hl Hs. simpl.
    destruct Hgrid as [->|[v ->]]; [by apply Hstatic|].
    rewrite set_tile_index_other_layer; [by apply Hstatic|].
    intros ->. destruct Hdyn as (layer' & Hl' & Hd). congruence.
  - intros l. simpl. destruct Hgrid as [->|[v ->]]; [done|].
    by rewrite set_tile_index_layer_type.
  - apply Forall_insert; [done|]. by rewrite Htile.
Qed.

Lemma update_inv ls0 time delta this :
  driver_inv ls0 this -> driver_inv ls0 (exec (update time delta) this).
Proof.
  intros Hinv. unfold update, exec, bind, gets. simpl.
  apply (forEach_inv (driver_inv ls0)); [|done].
  intros _ i this' _. apply update_tile_inv.
Qed.

Lemma run_frames_inv ls0 deltas : forall this,
  driver_inv ls0 this -> driver_inv ls0 (run_frames deltas this).
Proof.
  induction deltas as [|delta deltas IH]; intros this Hinv; [done|].
  simpl. by apply IH, update_inv.
Qed.

(** The scene that [init] and [create] leave is ready for the driver. *)
Lemma create_driver_inv tileset this :
  driver_inv (layers this) (exec (init ;; create tileset) this).
Proof.
  unfold exec, bind, init, modify. simpl.
  destruct (create_inv tileset (set_animatedTiles this []))
    as [Hls (added & Hats & Hadded)].
  unfold exec in *. simpl in *.
  split; [|split].
  - intros l layer Hl _. by rewrite Hls.
  - intros l. by rewrite Hls.
  - rewrite Hats. eapply Forall_impl; [exact Hadded|].
    intros a (tileid0 & entry & frames & _ & _ & Hm & _).
    destruct Hm as (layer & _ & _ & Hl & Hd & _). by exists layer.
Qed.

(** C6.  Take a layer whose kind is [StaticTilemapLayer].  After [init]
    and [create], and after any number of frames, whether calls returned
    or threw, no animated tile refers to that layer and the layer is
    what it was, tile for tile, whatever indices its tiles show.  The
    scan does not look at it either: with any other rows in that layer,
    [create] completes the same way and leaves the same animated tiles. *)
Theorem static_layers_untouched tileset this deltas l layer :
  layers this !! l = Some layer ->
  tilemapLayer_type layer = "StaticTilemapLayer" ->
  let this1 := exec (init ;; create tileset) this in
  let this2 := run_frames deltas this1 in
  Forall (fun a => ref_layer (AnimatedTile.tile a) <> l)
         (animatedTiles this1) /\
  layers this1 !! l = Some layer /\
  Forall (fun a => ref_layer (AnimatedTile.tile a) <> l)
         (animatedTiles this2) /\
  layers this2 !! l = Some layer /\
  (forall rows,
     let this' :=
       {| animatedTiles := animatedTiles this;
          layers := <[l := set_data layer rows]> (layers this) |} in
     fst ((init ;; create tileset) this') =
       fst ((init ;; create tileset) this) /\
     animatedTiles (exec (init ;; create tileset) this') =
       animatedTiles this1).
Proof.
  intros Hl Htype this1 this2.
  assert (Hs : is_static layer = true)
    by (unfold is_static; by rewrite Htype).
  pose proof (create_driver_inv tileset this) as Hinv1.
  pose proof (run_frames_inv _ deltas _ Hinv1) as Hinv2.
  fold this1 in Hinv1. fold this1 this2 in Hinv2.
  assert (Hno : forall this',
             driver_inv (layers this) this' ->
             Forall (fun a => ref_layer (AnimatedTile.tile a) <> l)
                    (animatedTiles this')).
  { intros this' (_ & _ & Hrefs). eapply Forall_impl; [exact Hrefs|].
    intros a (layer' & Hl' & Hd) Heq. rewrite Heq in Hl'. congruence. }
  split; [by apply Hno|]. split; [by apply Hinv1|].
  split; [by apply Hno|]. split; [by apply Hinv2|].
  intros rows this'. unfold this1, exec, bind, init, modify. simpl.
  apply (create_same_dynamic tileset
           (set_animatedTiles this' []) (set_animatedTiles this [])); [done|].
  simpl. split; [by rewrite length_insert|].
  intros j x x' Hx Hx'.
  destruct (decide (l = j)) as [<-|Hne].
  - rewrite list_lookup_insert_eq in Hx by (by eapply lookup_lt_Some).
    right. split; [by injection Hx as <-|congruence].
  - rewrite list_lookup_insert_ne in Hx by done. left. congruence.
Qed.

Lemma static_layers_untouched_witness :
  let layer := {| tilemapLayer_type := "StaticTilemapLayer";
                  data := [ [ {| index := 1 |} ] ] |} in
  layers Demo.layered_scene !! 0%nat = Some layer /\
  tilemapLayer_type layer = "StaticTilemapLayer" /\
  let this1 := exec (init ;; create Demo.tileset) Demo.layered_scene in
  let this2 := run_frames [150; 200] this1 in
  Forall (fun a => ref_layer (AnimatedTile.tile a) <> 0%nat)
         (animatedTiles this1) /\
  layers this1 !! 0%nat = Some layer /\
  Forall (fun a => ref_layer (AnimatedTile.tile a) <> 0%nat)
         (animatedTiles this2) /\
  layers this2 !! 0%nat = Some layer /\
  (forall rows,
     let this' :=
       {| animatedTiles := animatedTiles Demo.layered_scene;
          layers := <[0%nat := set_data layer rows]>
                      (layers Demo.layered_scene) |} in
     fst ((init ;; create Demo.tileset) this') =
       fst ((init ;; create Demo.tileset) Demo.layered_scene) /\
     animatedTiles (exec (init ;; create Demo.tileset) this') =
       animatedTiles this1).
Proof.
  intros layer.
  assert (Hl : layers Demo.layered_scene !! 0%nat = Some layer)
    by reflexivity.
  assert (Htype : tilemapLayer_type layer = "StaticTilemapLayer")
    by reflexivity.
  repeat (split; [assumption|]).
  exact (static_layers_untouched Demo.tileset Demo.layered_scene [150; 200]
           0%nat layer Hl Htype).
Defined.

(** When no entry of the tileset's table carries an animation, the
    scene has no animated tile after [init] and [create], its layers are
    untouched, and every [update] returns leaving the scene as it is,
    whether [create] returned or threw.  With an empty table [create]
    returns. *)
Theorem no_animation_no_instances tileset this :
  (forall tileid0 entry,
     tileData tileset !! tileid0 = Some entry -> animation entry = None) ->
  let this1 := exec (init ;; create tileset) this in
  animatedTiles this1 = [] /\
  layers this1 = layers this /\
  (forall time delta, update time delta this1 = (Normal tt, this1)) /\
  (tileData tileset = ∅ ->
   fst ((init ;; create tileset) this) = Normal tt).
Proof.
  intros Hnone this1.
  assert (Hats : animatedTiles this1 = [] /\ layers this1 = layers this).
  { unfold this1, exec, bind, init, modify. simpl.
    destruct (create_inv tileset (set_animatedTiles this []))
      as [Hls (added & Hats & Hadded)].
    unfold exec in *. simpl in *. split; [|done].
    rewrite Hats. destruct added as [|a added]; [done|].
    apply Forall_cons in Hadded
      as [(tileid0 & entry & frames & Hentry & Hanim & _) _].
    rewrite (Hnone _ _ Hentry) in Hanim. done. }
  destruct Hats as [Hats Hls].
  split; [done|]. split; [done|]. split.
  - intros time delta. unfold update, bind, gets. simpl. by rewrite Hats.
  - intros Hempty. unfold bind, init, modify, create. simpl.
    rewrite Hempty. unfold own_keys. by rewrite map_to_list_empty.
Qed.

Lemma no_animation_no_instances_witness :
  (forall tileid0 entry,
     tileData Demo.plain_tileset !! tileid0 = Some entry ->
     animation entry = None) /\
  let this1 := exec (init ;; create Demo.plain_tileset) Demo.scene in
  animatedTiles this1 = [] /\
  layers this1 = layers Demo.scene /\
  (forall time delta, update time delta this1 = (Normal tt, this1)) /\
  (tileData Demo.plain_tileset = ∅ ->
   fst ((init ;; create Demo.plain_tileset) Demo.scene) = Normal tt).
Proof.
  assert (Hnone : forall tileid0 entry,
             tileData Demo.plain_tileset !! tileid0 = Some entry ->
             animation entry = None).
  { intros tileid0 entry Hentry. unfold Demo.plain_tileset in Hentry.
    simpl in Hentry.
    apply lookup_singleton_Some in Hentry as [_ <-]. reflexivity. }
  split; [assumption|].
  exact (no_animation_no_instances Demo.plain_tileset Demo.scene Hnone).
Defined.

(** *** Which tiles the scan wraps *)

(** [create] returns exactly when every matching tile shows a local tile
    whose entry carries a first frame. *)
Lemma create_returns_iff tileset this :
  fst (create tileset this) = Normal tt <->
  matched_entries_animated tileset (layers this).
Proof.
  split; [apply create_returns|].
  intros Hwf. by rewrite (create_scan _ _ Hwf).
Qed.

(** Whether the scan returns or throws, an animated tile of the scene was
    built for a tile of a layer that is not static, whose local id is a
    key of the table with an entry that carries an animation. *)
Lemma create_wraps_only_matching tileset this a :
  a ∈ animatedTiles (exec (init ;; create tileset) this) ->
  scanned tileset (layers this) a.
Proof.
  unfold exec, bind, init, modify. simpl.
  destruct (create_inv tileset (set_animatedTiles this []))
    as [_ (added & Hats & Hadded)].
  unfold exec in Hats. simpl in Hats. rewrite Hats.
  intros Ha. by eapply (proj1 (Forall_forall _ _) Hadded).
Qed.

(** A placed tile whose local id is no key of the table is never
    wrapped. *)
Lemma unmatched_tile_never_wrapped tileset this r :
  (forall tileid0,
     is_Some (tileData tileset !! tileid0) ->
     ~ matches tileset (layers this) tileid0 r) ->
  Forall (fun a => AnimatedTile.tile a <> r)
         (animatedTiles (exec (init ;; create tileset) this)).
Proof.
  intros Hno. apply Forall_forall. intros a Ha Htile.
  apply create_wraps_only_matching in Ha
    as (tileid0 & entry & frames & Hentry & _ & Hm & _).
  rewrite Htile in Hm. by eapply Hno.
Qed.

(** When every matching tile shows a local tile whose entry carries a
    first frame, the scan returns and the animated tiles of the scene are
    exactly those of the matching tiles, one for each. *)
Lemma create_wraps_exactly tileset this :
  matched_entries_animated tileset (layers this) ->
  let this1 := exec (init ;; create tileset) this in
  fst ((init ;; create tileset) this) = Normal tt /\
  (forall a, a ∈ animatedTiles this1 <-> scanned tileset (layers this) a) /\
  NoDup (AnimatedTile.tile <$> animatedTiles this1).
Proof.
  intros Hwf. unfold exec, bind, init, modify. simpl.
  rewrite (create_scan tileset (set_animatedTiles this [])) by done.
  simpl. split; [done|]. split; [|apply NoDup_scan].
  intros a. apply elem_of_scan.
Qed.

(** C7, at the scene of [Demo.plain_tileset].  The table has one entry
    and it carries no animation, so no tile id is animated; the tile of
    index 1 shows that entry's local tile, the scan tries to build an
    animated tile for it and throws instead of ending with an empty
    list. *)
Theorem scan_throws_without_animated_ids :
  (forall tileid0 entry,
     tileData Demo.plain_tileset !! tileid0 = Some entry ->
     animation entry = None) /\
  matches Demo.plain_tileset (layers Demo.scene) 0%N Demo.origin /\
  (init ;; create Demo.plain_tileset) Demo.scene =
    (Throw TypeError, Demo.scene).
Proof.
  split; [|split].
  - intros tileid0 entry Hentry. unfold Demo.plain_tileset in Hentry.
    simpl in Hentry. by apply lookup_singleton_Some in Hentry as [_ <-].
  - eexists _, _, _. repeat split; reflexivity.
  - by vm_compute.
Qed.

(** C5, at the scene of [Demo.mixed_tileset].  The tile in column 1
    shows local tile 1, whose entry carries an animation, and lies in a
    dynamic layer; the scan first meets the tile in column 0, whose
    entry carries none, throws there, and the scene is left without any
    animated tile. *)
Theorem scan_stops_at_entry_without_animation :
  let r := {| ref_layer := 0; ref_row := 0; ref_col := 1 |} in
  tileData Demo.mixed_tileset !! 1%N
    = Some {| animation := Some Demo.water |} /\
  matches Demo.mixed_tileset (layers Demo.mixed_scene) 1%N r /\
  (init ;; create Demo.mixed_tileset) Demo.mixed_scene =
    (Throw TypeError, Demo.mixed_scene).
Proof.
  split; [by vm_compute|]. split.
  - eexists _, _, _. repeat split; reflexivity.
  - by vm_compute.
Qed.

End driver.


(** * Further properties *)

(** ** Player: one update *)

Section player.
Import Player.
Implicit Types (keys : Keys) (this : Player.t).

(** X1.  Whatever keys are down, the player never moves diagonally and
    its speed is 64 when some key is down, 0 when none is: opposite keys
    do not cancel out. *)
Theorem player_moves_on_one_axis keys this :
  let p := update keys this in
  (velocity_x p = 0 \/ velocity_y p = 0) /\
  Z.abs (velocity_x p) + Z.abs (velocity_y p) =
    (if released keys then 0 else 64).
Proof.
  destruct keys as [[] [] [] []]; simpl; split; auto.
Qed.

(** X2.  The direction goes by the first key down in the order W, A, S,
    D: up exactly when W is down, left exactly when A is down and W is
    not, down exactly when S is down and neither W nor A, right exactly
    when only D is down. *)
Theorem player_direction_by_priority keys this :
  let p := update keys this in
  (velocity_y p < 0 <-> keyW keys = true) /\
  (velocity_x p < 0 <-> keyW keys = false /\ keyA keys = true) /\
  (0 < velocity_y p <->
     keyW keys = false /\ keyA keys = false /\ keyS keys = true) /\
  (0 < velocity_x p <->
     keyW keys = false /\ keyA keys = false /\ keyS keys = false /\
     keyD keys = true).
Proof.
  destruct keys as [[] [] [] []]; simpl;
    repeat split; (lia || (intros; intuition (lia || discriminate))).
Qed.

(** X3.  The animation after [update] is "idle" when no key is down and
    "run" otherwise, whatever animation was current and however the
    player moved before. *)
Theorem player_animation_by_keys keys this :
  currentAnim (update keys this) =
    Some (if released keys then "idle" else "run")%string.
Proof. by destruct keys as [[] [] [] []]. Qed.

(** X4.  [update] turns the sprite only when the player moves sideways:
    it faces left after moving left, right after moving right, and keeps
    its facing when it moves up or down or stands still; so W, and S
    before D, keep the facing even while a sideways key is down. *)
Theorem player_facing keys this :
  let p := update keys this in
  flipX p =
    (if velocity_x p <? 0 then true
     else if 0 <? velocity_x p then false
     else flipX this) /\
  flipX p =
    (if keyW keys then flipX this
     else if keyA keys then true
     else if keyS keys then flipX this
     else if keyD keys then false
     else flipX this).
Proof. by destruct keys as [[] [] [] []]. Qed.

(** X5.  A second [update] under the same keys changes nothing, and the
    velocity and the animation that [update] leaves do not depend on the
    state it began in. *)
Theorem player_update_idempotent keys this :
  update keys (update keys this) = update keys this /\
  forall other,
    velocity_x (update keys other) = velocity_x (update keys this) /\
    velocity_y (update keys other) = velocity_y (update keys this) /\
    currentAnim (update keys other) = currentAnim (update keys this).
Proof.
  split; [|intros other]; by destruct keys as [[] [] [] []].
Qed.

End player.

(** ** AnimatedTile: any delta, any run *)

Section any_delta.
Import AnimatedTile.
Implicit Types (a : AnimatedTile.t) (ls : list LayerData).
Implicit Types (delta e D : Z).

(** One update that keeps the elapsed time non-negative, from any elapsed
    time and with a delta of any sign. *)
Lemma update_forward delta a ls D e :
  cycle_of a D ->
  0 < animationDuration a ->
  elapsedTime a = Num e -> 0 <= e + delta ->
  let e' := (e + delta) mod animationDuration a in
  exists frame,
    tileAnimationData a !! Z.to_nat (e' / D) = Some frame /\
    update delta (a, ls) =
      (Normal tt,
       (set_elapsedTime a (Num e'),
        set_tile_index (tile a) (tileid frame + firstgid a) ls)).
Proof.
  intros (frame0 & H0 & HD & HT) Hpos He Hsum e'.
  assert (Hrange : 0 <= e' < animationDuration a)
    by (apply Z.mod_pos_bound; lia).
  assert (HD0 : 0 < D) by nia.
  destruct (frame_index_in_range (tileAnimationData a) D e') as [Hi Hlt];
    [by rewrite <- HT|].
  destruct (lookup_lt_is_Some_2 _ _ Hlt) as [frame Hframe].
  exists frame. split; [done|].
  rewrite (update_unfold _ _ _ _ H0), He. simpl.
  destruct (Z.eqb_spec (animationDuration a) 0) as [|_]; [lia|].
  rewrite Z.rem_mod_nonneg by lia. fold e'. simpl. rewrite HD.
  destruct (Z.eqb_spec D 0) as [|_]; [lia|]. simpl.
  destruct (Z.leb_spec 0 (e' / D)) as [_|]; [|lia].
  by rewrite Hframe.
Qed.

(** The remainder of a negative time is negative or zero, within one
    cycle. *)
Lemma rem_negative x T :
  0 < T -> x < 0 -> - T < Z.rem x T <= 0.
Proof.
  intros HT Hx.
  pose proof (Z.rem_bound_pos (- x) T) as Hb.
  rewrite Z.rem_opp_l in Hb by lia. lia.
Qed.

(** X6.  A delta that takes the elapsed time below zero, short of a whole
    number of cycles, makes [update] throw: the tile is not written, and
    the elapsed time is not restored, it stays at the negative
    remainder. *)
Theorem update_underflow a ls delta D e :
  cycle_of a D ->
  0 < animationDuration a ->
  elapsedTime a = Num e ->
  e + delta < 0 ->
  Z.rem (e + delta) (animationDuration a) <> 0 ->
  update delta (a, ls) =
    (Throw TypeError,
     (set_elapsedTime a (Num (Z.rem (e + delta) (animationDuration a))),
      ls)) /\
  - animationDuration a < Z.rem (e + delta) (animationDuration a) < 0.
Proof.
  intros (frame0 & H0 & HD & HT) Hpos He Hsum Hrem.
  pose proof (rem_negative (e + delta) (animationDuration a) Hpos Hsum)
    as Hneg.
  split; [|lia].
  assert (HD0 : 0 < D) by nia.
  rewrite (update_unfold _ _ _ _ H0), He. simpl.
  destruct (Z.eqb_spec (animationDuration a) 0) as [|_]; [lia|]. simpl.
  rewrite HD. destruct (Z.eqb_spec D 0) as [|_]; [lia|]. simpl.
  assert (Z.rem (e + delta) (animationDuration a) / D < 0)
    by (apply Z.div_lt_upper_bound; lia).
  by destruct (Z.leb_spec 0 (Z.rem (e + delta) (animationDuration a) / D));
    [lia|].
Qed.

Lemma update_underflow_witness :
  cycle_of Demo.animated 100 /\
  0 < animationDuration Demo.animated /\
  elapsedTime Demo.animated = Num 0 /\
  0 + -50 < 0 /\
  Z.rem (0 + -50) (animationDuration Demo.animated) <> 0 /\
  update (-50) (Demo.animated, TilemapScene.layers Demo.scene) =
    (Throw TypeError,
     (set_elapsedTime Demo.animated
        (Num (Z.rem (0 + -50) (animationDuration Demo.animated))),
      TilemapScene.layers Demo.scene)).
Proof.
  assert (HD : cycle_of Demo.animated 100)
    by (eexists; repeat split; reflexivity).
  assert (Hpos : 0 < animationDuration Demo.animated) by reflexivity.
  assert (He : elapsedTime Demo.animated = Num 0) by reflexivity.
  assert (Hsum : 0 + -50 < 0) by reflexivity.
  assert (Hrem : Z.rem (0 + -50) (animationDuration Demo.animated) <> 0)
    by (intros H; discriminate H).
  repeat (split; [assumption|]).
  exact (proj1 (update_underflow Demo.animated
                  (TilemapScene.layers Demo.scene) (-50) 100 0
                  HD Hpos He Hsum Hrem)).
Defined.

(** X7.  With a positive total duration [T], [update(delta)] returns
    exactly when the new elapsed time is not negative or is a whole
    number of cycles below zero; so after an underflow the tile animates
    again as soon as the deltas have made up for it. *)
Theorem update_returns_iff a ls delta D e :
  cycle_of a D ->
  0 < animationDuration a ->
  elapsedTime a = Num e ->
  fst (update delta (a, ls)) = Normal tt <->
  0 <= e + delta \/ Z.rem (e + delta) (animationDuration a) = 0.
Proof.
  intros HD Hpos He. split.
  - intros Hret.
    destruct (Z_lt_le_dec (e + delta) 0) as [Hneg|Hnn]; [|by left].
    destruct (Z.eq_dec (Z.rem (e + delta) (animationDuration a)) 0)
      as [Hz|Hnz]; [by right|].
    destruct (update_underflow a ls delta D e HD Hpos He Hneg Hnz)
      as [Hup _].
    by rewrite Hup in Hret.
  - intros [Hnn|Hz].
    + destruct (update_forward delta a ls D e HD Hpos He Hnn)
        as (frame & _ & Hup).
      by rewrite Hup.
    + destruct HD as (frame0 & H0 & HD & HT).
      assert (HD0 : 0 < D) by nia.
      rewrite (update_unfold _ _ _ _ H0), He. simpl.
      destruct (Z.eqb_spec (animationDuration a) 0) as [|_]; [lia|].
      rewrite Hz. simpl. rewrite HD.
      destruct (Z.eqb_spec D 0) as [|_]; [lia|].
      rewrite Z.div_0_l by lia. simpl.
      change (Z.to_nat 0) with 0%nat. by rewrite H0.
Qed.

Lemma update_returns_iff_witness :
  cycle_of Demo.animated 100 /\
  0 < animationDuration Demo.animated /\
  elapsedTime Demo.animated = Num 0 /\
  (fst (update (-300) (Demo.animated, TilemapScene.layers Demo.scene))
     = Normal tt <->
   0 <= 0 + -300 \/ Z.rem (0 + -300) (animationDuration Demo.animated) = 0).
Proof.
  assert (HD : cycle_of Demo.animated 100)
    by (eexists; repeat split; reflexivity).
  assert (Hpos : 0 < animationDuration Demo.animated) by reflexivity.
  assert (He : elapsedTime Demo.animated = Num 0) by reflexivity.
  repeat (split; [assumption|]).
  exact (update_returns_iff Demo.animated (TilemapScene.layers Demo.scene)
           (-300) 100 0 HD Hpos He).
Defined.

End any_delta.

(** ** AnimatedTile: runs of updates *)

Section runs.
Import AnimatedTile.
Implicit Types (a : AnimatedTile.t) (ls : list LayerData).
Implicit Types (delta e D : Z).

(** Two updates in a row, within the cycle. *)
Lemma update_seq a ls D e d1 d2 :
  cycle_of a D -> 0 < animationDuration a ->
  elapsedTime a = Num e -> 0 <= e -> 0 <= d1 -> 0 <= d2 ->
  (update d1 ;; update d2) (a, ls) = update (d1 + d2) (a, ls).
Proof.
  intros HD Hpos He He0 Hd1 Hd2.
  destruct (update_in_cycle d1 a ls D e) as (frame1 & Hframe1 & Hup1);
    [done..|].
  pose proof (update_cycle_of d1 a ls D HD) as HD1.
  unfold exec in HD1. rewrite Hup1 in HD1. simpl in HD1.
  destruct (update_in_cycle d2
              (set_elapsedTime a (Num ((e + d1) mod animationDuration a)))
              (set_tile_index (tile a) (tileid frame1 + firstgid a) ls)
              D ((e + d1) mod animationDuration a))
    as (frame2 & Hframe2 & Hup2);
    [done|done|done|apply Z.mod_pos_bound; lia|done|].
  destruct (update_in_cycle (d1 + d2) a ls D e) as (frame & Hframe & Hup);
    [done|done|done|done|lia|].
  simpl in Hframe2, Hup2.
  assert (Heq : ((e + d1) mod animationDuration a + d2)
                  mod animationDuration a =
                (e + (d1 + d2)) mod animationDuration a).
  { rewrite Z.add_mod_idemp_l by lia. f_equal. lia. }
  rewrite Heq in Hframe2, Hup2.
  assert (frame2 = frame) as -> by congruence.
  unfold bind at 1. rewrite Hup1, Hup2, Hup.
  by rewrite set_tile_index_twice.
Qed.

Lemma updates_sum_from deltas : forall delta i a ls D e,
  cycle_of a D -> 0 < animationDuration a ->
  elapsedTime a = Num e -> 0 <= e -> 0 <= delta ->
  Forall (fun d => 0 <= d) deltas ->
  forEach_from i (delta :: deltas) (fun d _ => update d) (a, ls) =
  update (delta + total deltas) (a, ls).
Proof.
  induction deltas as [|d deltas IH];
    intros delta i a ls D e HD Hpos He He0 Hdelta Hall.
  - simpl. rewrite Z.add_0_r. unfold bind.
    by destruct (update delta (a, ls)) as [[[]|err] s].
  - apply Forall_cons in Hall as [Hd Hall].
    change (total (d :: deltas)) with (d + total deltas).
    rewrite <- (update_seq a ls D e delta (d + total deltas)); try done.
    + change (forEach_from i (delta :: d :: deltas)
                (fun d0 _ => update d0) (a, ls))
        with ((update delta ;;
               forEach_from (Datatypes.S i) (d :: deltas)
                 (fun d0 _ => update d0)) (a, ls)).
      destruct (update_in_cycle delta a ls D e) as (frame & _ & Hup);
        [done..|].
      pose proof (update_cycle_of delta a ls D HD) as HD1.
      unfold exec in HD1. rewrite Hup in HD1. simpl in HD1.
      unfold bind. rewrite Hup.
      apply (IH d (Datatypes.S i) _ _ D
               ((e + delta) mod animationDuration a)); try done.
      apply Z.mod_pos_bound. lia.
    + assert (0 <= total deltas); [|lia].
      clear -Hall. induction Hall; simpl; lia.
Qed.

(** X8.  For whole milliseconds: a run of updates with non-negative
    deltas ends in the state that one update with the sum of the deltas
    ends in, so that what the tile shows depends on the time that has
    passed, not on how the frames cut it up.  (On fractional deltas the
    sums round and the two can differ.) *)
Theorem updates_sum a ls deltas :
  reachable a -> 0 < animationDuration a ->
  deltas <> [] -> Forall (fun d => 0 <= d) deltas ->
  updates deltas (a, ls) = update (total deltas) (a, ls).
Proof.
  intros Hr Hpos Hne Hall.
  destruct (reachable_inv a Hr) as [[D HD] Hin].
  destruct (Hin Hpos) as (e & He & Hrange).
  destruct deltas as [|delta deltas]; [done|].
  apply Forall_cons in Hall as [Hdelta Hall].
  by apply (updates_sum_from deltas delta 0%nat a ls D e); try lia.
Qed.

Lemma updates_sum_witness :
  reachable Demo.animated /\
  0 < animationDuration Demo.animated /\
  [16; 17; 117] <> [] /\
  Forall (fun d => 0 <= d) [16; 17; 117] /\
  updates [16; 17; 117] (Demo.animated, TilemapScene.layers Demo.scene) =
  update (total [16; 17; 117])
    (Demo.animated, TilemapScene.layers Demo.scene).
Proof.
  assert (Hr : reachable Demo.animated)
    by (apply (reachable_new Demo.origin (Some Demo.water) 1); reflexivity).
  assert (Hpos : 0 < animationDuration Demo.animated) by reflexivity.
  assert (Hne : [16; 17; 117] <> []) by (intros H; discriminate H).
  assert (Hall : Forall (fun d => 0 <= d) [16; 17; 117])
    by (repeat constructor; intros H; discriminate H).
  repeat (split; [assumption|]).
  exact (updates_sum Demo.animated (TilemapScene.layers Demo.scene)
           [16; 17; 117] Hr Hpos Hne Hall).
Defined.

(** X9.  For whole milliseconds, whole cycles do not count:
    [update(delta + k * T)] ends in the state that [update(delta)] ends
    in, for every number [k] >= 0 of cycles of total duration [T].  (On
    fractional deltas the sum can round onto the next frame.) *)
Theorem update_whole_cycles a ls delta k :
  reachable a -> 0 < animationDuration a -> 0 <= delta -> 0 <= k ->
  update (delta + k * animationDuration a) (a, ls) = update delta (a, ls).
Proof.
  intros Hr Hpos Hdelta Hk.
  destruct (reachable_inv a Hr) as [[D HD] Hin].
  destruct (Hin Hpos) as (e & He & Hrange).
  destruct (update_in_cycle delta a ls D e) as (frame & Hframe & Hup);
    [done|done|done|lia|done|].
  destruct (update_in_cycle (delta + k * animationDuration a) a ls D e)
    as (frame' & Hframe' & Hup'); [done|done|done|lia|nia|].
  assert (Heq : (e + (delta + k * animationDuration a))
                  mod animationDuration a =
                (e + delta) mod animationDuration a).
  { rewrite Z.add_assoc. apply Z.mod_add. lia. }
  rewrite Heq in Hframe', Hup'.
  assert (frame' = frame) as -> by congruence.
  by rewrite Hup, Hup'.
Qed.

Lemma update_whole_cycles_witness :
  reachable Demo.animated /\
  0 < animationDuration Demo.animated /\
  0 <= 150 /\ 0 <= 7 /\
  update (150 + 7 * animationDuration Demo.animated)
    (Demo.animated, TilemapScene.layers Demo.scene) =
  update 150 (Demo.animated, TilemapScene.layers Demo.scene).
Proof.
  assert (Hr : reachable Demo.animated)
    by (apply (reachable_new Demo.origin (Some Demo.water) 1); reflexivity).
  assert (Hpos : 0 < animationDuration Demo.animated) by reflexivity.
  assert (Hdelta : 0 <= 150) by (intros H; discriminate H).
  assert (Hk : 0 <= 7) by (intros H; discriminate H).
  repeat (split; [assumption|]).
  exact (update_whole_cycles Demo.animated (TilemapScene.layers Demo.scene)
           150 7 Hr Hpos Hdelta Hk).
Defined.

Lemma array_get_fmap {A B} (f : A -> B) (arr : list A) n :
  array_get (f <$> arr) n = f <$> array_get arr n.
Proof.
  destruct n as [z| |s]; simpl; [|done..].
  destruct (0 <=? z); [|done]. apply list_lookup_fmap.
Qed.

(** One update of two animated tiles that differ in later durations
    only. *)
Lemma update_same_schedule delta a a' ls :
  same_schedule a a' ->
  fst (update delta (a, ls)) = fst (update delta (a', ls)) /\
  same_schedule (fst (exec (update delta) (a, ls)))
                (fst (exec (update delta) (a', ls))) /\
  snd (exec (update delta) (a, ls)) = snd (exec (update delta) (a', ls)).
Proof.
  intros (Htile & Hgid & He & HT & Hids & Hfirst). unfold exec.
  destruct (tileAnimationData a !! 0%nat) as [frame0|] eqn:H0;
    destruct (tileAnimationData a' !! 0%nat) as [frame0'|] eqn:H0';
    try done.
  - injection Hfirst as Hfirst.
    rewrite (update_unfold _ _ _ _ H0), (update_unfold _ _ _ _ H0').
    simpl. rewrite He, HT, Hfirst.
    set (n := Number.floor_div _ _).
    pose proof (array_get_fmap tileid (tileAnimationData a) n) as Hn.
    rewrite Hids, array_get_fmap in Hn.
    destruct (array_get (tileAnimationData a) n) as [frame|],
             (array_get (tileAnimationData a') n) as [frame'|];
      try done; simpl in *.
    + injection Hn as Hn. rewrite Htile, Hgid, Hn.
      repeat split; try done.
      unfold set_elapsedTime. cbn [tileAnimationData].
      rewrite H0, H0'. simpl. by f_equal.
    + repeat split; try done.
      unfold set_elapsedTime. cbn [tileAnimationData].
      rewrite H0, H0'. simpl. by f_equal.
  - rewrite (update_no_frames _ _ _ H0), (update_no_frames _ _ _ H0').
    simpl. rewrite He, HT. repeat split; try done.
    unfold set_elapsedTime. cbn [tileAnimationData]. by rewrite H0, H0'.
Qed.

(** X10.  Only the first frame's duration counts.  Two definitions with
    the same tile ids, frame for frame, and the same first duration give
    animated tiles that behave alike under any run of updates: the same
    completion, the same grid and the same elapsed time, whatever the
    durations of the later frames. *)
Theorem later_durations_ignored tile0 gid frames frames' a a' :
  new tile0 (Some frames) gid = Normal a ->
  new tile0 (Some frames') gid = Normal a' ->
  tileid <$> frames = tileid <$> frames' ->
  duration <$> frames !! 0%nat = duration <$> frames' !! 0%nat ->
  forall deltas ls,
    fst (updates deltas (a, ls)) = fst (updates deltas (a', ls)) /\
    snd (exec (updates deltas) (a, ls)) =
      snd (exec (updates deltas) (a', ls)) /\
    elapsedTime (fst (exec (updates deltas) (a, ls))) =
      elapsedTime (fst (exec (updates deltas) (a', ls))).
Proof.
  intros Hnew Hnew' Hids Hfirst deltas ls.
  apply new_Normal in Hnew as (fs & frame0 & [= <-] & H0 & ->).
  apply new_Normal in Hnew' as (fs' & frame0' & [= <-] & H0' & ->).
  rewrite H0, H0' in Hfirst. injection Hfirst as Hfirst.
  set (R := fun s s' : Env =>
              same_schedule (fst s) (fst s') /\ snd s = snd s').
  destruct (forEach_from_rel R (fun d _ => update d) (fun d _ => update d)
              deltas deltas 0%nat
              ({| tile := tile0; tileAnimationData := frames;
                  firstgid := gid; elapsedTime := Num 0;
                  animationDuration :=
                    duration frame0 * Z.of_nat (length frames) |}, ls)
              ({| tile := tile0; tileAnimationData := frames';
                  firstgid := gid; elapsedTime := Num 0;
                  animationDuration :=
                    duration frame0' * Z.of_nat (length frames') |}, ls))
    as (Hfst & Hsame & Hgrid); [done| | |].
  - intros j d d' [a1 ls1] [a2 ls2] Hd Hd' [Hs Hls]. simpl in Hs, Hls.
    assert (d' = d) as -> by congruence. subst ls2.
    destruct (update_same_schedule d a1 a2 ls1 Hs) as (? & ? & ?).
    done.
  - split; [|done]. simpl. repeat split; try done.
    + simpl. rewrite Hfirst. f_equal. f_equal.
      by rewrite <- (length_fmap tileid frames), Hids, length_fmap.
    + cbn [tileAnimationData]. rewrite H0, H0'. simpl. by f_equal.
  - split; [done|]. split; [done|]. by destruct Hsame as (_ & _ & ? & _).
Qed.

Lemma later_durations_ignored_witness :
  new Demo.origin (Some Demo.water) 1 = Normal Demo.animated /\
  tileid <$> Demo.water = tileid <$> Sample.uneven /\
  duration <$> Demo.water !! 0%nat = duration <$> Sample.uneven !! 0%nat /\
  exists a',
    new Demo.origin (Some Sample.uneven) 1 = Normal a' /\
    forall deltas ls,
      fst (updates deltas (Demo.animated, ls)) =
        fst (updates deltas (a', ls)) /\
      snd (exec (updates deltas) (Demo.animated, ls)) =
        snd (exec (updates deltas) (a', ls)) /\
      elapsedTime (fst (exec (updates deltas) (Demo.animated, ls))) =
        elapsedTime (fst (exec (updates deltas) (a', ls))).
Proof.
  assert (Hnew : new Demo.origin (Some Demo.water) 1 = Normal Demo.animated)
    by reflexivity.
  assert (Hids : tileid <$> Demo.water = tileid <$> Sample.uneven)
    by reflexivity.
  assert (Hfirst : duration <$> Demo.water !! 0%nat =
                   duration <$> Sample.uneven !! 0%nat) by reflexivity.
  repeat (split; [assumption|]).
  eexists. split; [reflexivity|].
  exact (later_durations_ignored Demo.origin 1 Demo.water Sample.uneven
           _ _ Hnew eq_refl Hids Hfirst).
Defined.

End runs.

(** ** Loops, step by step *)

Section loop_steps.
Context {S A : Type}.

(** A loop whose body, at step [j], takes a state with [I j] to one with
    [I (j + 1)] when it returns and to one with [Q] when it throws, ends
    with [I] of the length when it returns and with [Q] when it throws. *)
Lemma forEach_from_steps (Q : S -> Prop) (f : A -> nat -> M S unit) xs :
  forall (I : nat -> S -> Prop) i s,
  I 0%nat s ->
  (forall j x s',
     xs !! j = Some x -> I j s' ->
     match f x (i + j)%nat s' with
     | (Normal _, s'') => I (Datatypes.S j) s''
     | (Throw _, s'') => Q s''
     end) ->
  match forEach_from i xs f s with
  | (Normal _, s'') => I (length xs) s''
  | (Throw _, s'') => Q s''
  end.
Proof.
  induction xs as [|x xs IH]; intros I i s H0 Hbody; [done|].
  simpl. unfold bind.
  pose proof (Hbody 0%nat x s eq_refl H0) as Hx.
  rewrite Nat.add_0_r in Hx.
  destruct (f x i s) as [[[]|e] s1]; [|done].
  apply (IH (fun j => I (Datatypes.S j))); [done|].
  intros j y s' Hy HI. specialize (Hbody (Datatypes.S j) y s' Hy HI).
  by rewrite Nat.add_succ_r in Hbody.
Qed.

End loop_steps.

(** ** The scene, frame after frame *)

Section scene_runs.
Import TilemapScene.
Implicit Types (this : TilemapScene.t) (tileset : Tileset).
Implicit Types (ls : list LayerData) (a : AnimatedTile.t).

Lemma update_tile_tiles i delta this :
  AnimatedTile.tile <$> animatedTiles (exec (update_tile i delta) this) =
  AnimatedTile.tile <$> animatedTiles this.
Proof.
  unfold exec, update_tile.
  destruct (animatedTiles this !! i) as [a|] eqn:Ha; [|done].
  pose proof (update_fields delta a (layers this)) as (Htile & _).
  unfold exec in Htile.
  destruct (AnimatedTile.update delta (a, layers this)) as [c [a' ls']].
  simpl in *. rewrite list_fmap_insert, Htile.
  apply list_insert_id. by rewrite list_lookup_fmap, Ha.
Qed.

Lemma update_tile_other_tiles i delta this r :
  r ∉ AnimatedTile.tile <$> animatedTiles this ->
  get_tile (layers (exec (update_tile i delta) this)) r =
  get_tile (layers this) r.
Proof.
  intros Hr. unfold exec, update_tile.
  destruct (animatedTiles this !! i) as [a|] eqn:Ha; [|done].
  pose proof (update_grid delta a (layers this)) as Hgrid.
  unfold exec in Hgrid.
  destruct (AnimatedTile.update delta (a, layers this)) as [c [a' ls']].
  simpl in *. destruct Hgrid as [->|[v ->]]; [done|].
  apply get_set_tile_index_ne. intros Heq. apply Hr. rewrite <- Heq.
  apply list_elem_of_fmap. exists a. split; [done|].
  by eapply list_elem_of_lookup_2.
Qed.

(** One frame, returning or throwing, writes no tile but those that the
    animated tiles refer to, and keeps the references. *)
Lemma update_other_tiles time delta this r :
  r ∉ AnimatedTile.tile <$> animatedTiles this ->
  AnimatedTile.tile <$> animatedTiles (exec (update time delta) this) =
    AnimatedTile.tile <$> animatedTiles this /\
  get_tile (layers (exec (update time delta) this)) r =
    get_tile (layers this) r.
Proof.
  intros Hr. unfold update, exec, bind, gets. simpl.
  apply (forEach_inv
           (fun this' =>
              AnimatedTile.tile <$> animatedTiles this' =
                AnimatedTile.tile <$> animatedTiles this /\
              get_tile (layers this') r = get_tile (layers this) r));
    [|done].
  intros _ i this' _ [Htiles Hget]. split.
  - by rewrite update_tile_tiles.
  - rewrite update_tile_other_tiles; [done|]. by rewrite Htiles.
Qed.

Lemma run_frames_other_tiles deltas r : forall this,
  r ∉ AnimatedTile.tile <$> animatedTiles this ->
  get_tile (layers (run_frames deltas this)) r = get_tile (layers this) r.
Proof.
  induction deltas as [|delta deltas IH]; intros this Hr; [done|].
  simpl. destruct (update_other_tiles 0 delta this r Hr) as [Htiles Hget].
  rewrite IH; [done|]. by rewrite Htiles.
Qed.

(** X11.  A placed tile whose local id is no key of the table keeps its
    index for ever: neither the scan nor any number of frames, returning
    or throwing, writes it.  So it is for the tiles of static layers and
    for every tile that no animated tile wraps. *)
Theorem unanimated_tile_keeps_index tileset this deltas r :
  (forall tileid0,
     is_Some (tileData tileset !! tileid0) ->
     ~ matches tileset (layers this) tileid0 r) ->
  get_tile
    (layers (run_frames deltas (exec (init ;; create tileset) this))) r =
  get_tile (layers this) r.
Proof.
  intros Hno.
  pose proof (unmatched_tile_never_wrapped tileset this r Hno) as Hnever.
  rewrite run_frames_other_tiles.
  - unfold exec, bind, init, modify. simpl.
    destruct (create_inv tileset (set_animatedTiles this [])) as [Hls _].
    unfold exec in Hls. by rewrite Hls.
  - intros (a & Htile & Ha)%list_elem_of_fmap.
    by apply (proj1 (Forall_forall _ _) Hnever a Ha).
Qed.

Lemma unanimated_tile_keeps_index_witness :
  let r := {| ref_layer := 0; ref_row := 0; ref_col := 1 |} in
  (forall tileid0,
     is_Some (tileData Demo.tileset !! tileid0) ->
     ~ matches Demo.tileset (layers Demo.scene) tileid0 r) /\
  get_tile
    (layers (run_frames [150; 200]
               (exec (init ;; create Demo.tileset) Demo.scene))) r =
  get_tile (layers Demo.scene) r.
Proof.
  intros r.
  assert (Hno : forall tileid0,
             is_Some (tileData Demo.tileset !! tileid0) ->
             ~ matches Demo.tileset (layers Demo.scene) tileid0 r).
  { intros tileid0 [entry Hentry]. unfold Demo.tileset in Hentry.
    simpl in Hentry. apply lookup_singleton_Some in Hentry as [<- _].
    intros (layer & tileRow & tile0 & Hl & _ & Hr & Hc & Hm).
    injection Hl as <-. injection Hr as <-. injection Hc as <-.
    discriminate Hm. }
  split; [assumption|].
  exact (unanimated_tile_keeps_index Demo.tileset Demo.scene [150; 200] r
           Hno).
Defined.

(** X12.  A cell whose index is below the tileset's [firstgid], an empty
    cell of index -1 for one, is never wrapped by the scan. *)
Theorem tile_below_firstgid_never_wrapped tileset this r tile0 :
  get_tile (layers this) r = Some tile0 ->
  index tile0 < firstgid tileset ->
  Forall (fun a => AnimatedTile.tile a <> r)
         (animatedTiles (exec (init ;; create tileset) this)).
Proof.
  intros Hget Hlow. apply unmatched_tile_never_wrapped.
  intros tileid0 _ (layer & tileRow & tile1 & Hl & _ & Hr & Hc & Hm).
  unfold get_tile in Hget. rewrite Hl, Hr, Hc in Hget.
  injection Hget as ->. unfold parseInt in Hm. lia.
Qed.

Lemma tile_below_firstgid_never_wrapped_witness :
  get_tile (layers Sample.sparse_scene) Demo.origin
    = Some {| index := -1 |} /\
  -1 < firstgid Demo.tileset /\
  Forall (fun a => AnimatedTile.tile a <> Demo.origin)
         (animatedTiles
            (exec (init ;; create Demo.tileset) Sample.sparse_scene)).
Proof.
  assert (Hget : get_tile (layers Sample.sparse_scene) Demo.origin
                 = Some {| index := -1 |}) by reflexivity.
  assert (Hlow : index {| index := -1 |} < firstgid Demo.tileset)
    by reflexivity.
  repeat (split; [assumption|]).
  exact (tile_below_firstgid_never_wrapped Demo.tileset Sample.sparse_scene
           Demo.origin {| index := -1 |} Hget Hlow).
Defined.

(** X13.  Starting the scene again right after a scan gives the same
    scene: [init] empties the list of animated tiles and the scan reads
    nothing but the grid, which it did not touch. *)
Theorem restart_after_scan tileset this :
  let this1 := exec (init ;; create tileset) this in
  layers this1 = layers this /\
  (init ;; create tileset) this1 = (init ;; create tileset) this.
Proof.
  intros this1.
  assert (Hls : layers this1 = layers this).
  { unfold this1, exec, bind, init, modify. simpl.
    destruct (create_inv tileset (set_animatedTiles this [])) as [Hls _].
    by unfold exec in Hls. }
  split; [done|].
  unfold bind, init, modify. simpl.
  unfold set_animatedTiles. by rewrite Hls.
Qed.

End scene_runs.

(** ** A healthy scene stays in step *)

Section in_step.
Import TilemapScene.
Implicit Types (this : TilemapScene.t) (tileset : Tileset).
Implicit Types (ls : list LayerData) (a : AnimatedTile.t).

Lemma advance_tile delta a :
  AnimatedTile.tile (advance delta a) = AnimatedTile.tile a.
Proof. unfold advance. by destruct (AnimatedTile.elapsedTime a). Qed.

Lemma advance_sound delta a : sound a -> sound (advance delta a).
Proof.
  intros [[D (frame0 & H0 & HD & HT)] (e & He & Hrange)].
  unfold advance. rewrite He. split.
  - exists D, frame0. by simpl.
  - eexists. split; [done|]. simpl. apply Z.mod_pos_bound. lia.
Qed.

Lemma advance_advance d1 d2 a :
  sound a -> advance d2 (advance d1 a) = advance (d1 + d2) a.
Proof.
  intros [_ (e & He & Hrange)]. unfold advance. rewrite He. simpl.
  rewrite Z.add_mod_idemp_l by lia. by rewrite Z.add_assoc.
Qed.

Lemma advance_0 a : sound a -> advance 0 a = a.
Proof.
  intros [_ (e & He & Hrange)]. unfold advance. rewrite He.
  rewrite Z.add_0_r, Z.mod_small by done.
  rewrite <- He. apply set_elapsedTime_id.
Qed.

(** One update of a sound animated tile. *)
Lemma update_sound delta a ls :
  sound a -> 0 <= delta ->
  exists frame,
    AnimatedTile.update delta (a, ls) =
      (Normal tt,
       (advance delta a,
        set_tile_index (AnimatedTile.tile a)
          (tileid frame + AnimatedTile.firstgid a) ls)) /\
    (is_Some (get_tile ls (AnimatedTile.tile a)) ->
     AnimatedTile.displays
       (set_tile_index (AnimatedTile.tile a)
          (tileid frame + AnimatedTile.firstgid a) ls)
       (advance delta a)).
Proof.
  intros [[D HD] (e & He & Hrange)] Hdelta.
  destruct (update_in_cycle delta a ls D e) as (frame & Hframe & Hup);
    [done|lia|done|lia|done|].
  exists frame. unfold advance. rewrite He. split; [done|].
  intros Hsome.
  pose proof HD as (frame0 & H0 & HD0 & HT).
  assert (0 < D) by nia.
  exists D, ((e + delta) mod AnimatedTile.animationDuration a), frame.
  split; [by exists frame0|]. split; [done|]. split.
  - rewrite frame_at_in_cycle; [done|done|].
    apply Z.mod_pos_bound. lia.
  - simpl. by apply get_set_tile_index.
Qed.

Lemma displays_other_tile ls a r v :
  r <> AnimatedTile.tile a ->
  AnimatedTile.displays ls a ->
  AnimatedTile.displays (set_tile_index r v ls) a.
Proof.
  intros Hne (D & e & frame & HD & He & Hat & Hget).
  exists D, e, frame. repeat split; try done.
  by rewrite get_set_tile_index_ne.
Qed.

Lemma set_tile_index_is_Some ls r v t :
  is_Some (get_tile ls t) -> is_Some (get_tile (set_tile_index r v ls) t).
Proof.
  intros Hsome. destruct (decide (r = t)) as [->|Hne].
  - by rewrite get_set_tile_index.
  - by rewrite get_set_tile_index_ne.
Qed.

(** One frame of a healthy scene: [update] returns, every animated tile
    is [delta] further in its cycle and its tile shows the frame of its
    elapsed time. *)
Lemma update_healthy time delta this :
  healthy this -> 0 <= delta ->
  exists this',
    update time delta this = (Normal tt, this') /\
    animatedTiles this' = advance delta <$> animatedTiles this /\
    Forall (AnimatedTile.displays (layers this')) (animatedTiles this') /\
    healthy this'.
Proof.
  intros (Hsound & Hnodup & Hvalid) Hdelta.
  set (ats := animatedTiles this) in *.
  set (I := fun (j : nat) (this' : TilemapScene.t) =>
    (forall k,
       animatedTiles this' !! k =
         if decide (k < j)%nat then advance delta <$> ats !! k
         else ats !! k) /\
    (forall k a,
       (k < j)%nat -> ats !! k = Some a ->
       AnimatedTile.displays (layers this') (advance delta a)) /\
    (forall a,
       a ∈ ats -> is_Some (get_tile (layers this') (AnimatedTile.tile a)))).
  assert (Hstart : I 0%nat this).
  { split; [|split].
    - intros k. by case_decide; [lia|].
    - intros k a Hk. lia.
    - intros a Ha. by apply (proj1 (Forall_forall _ _) Hvalid). }
  assert (Hbody : forall j x this1,
             ats !! j = Some x -> I j this1 ->
             match update_tile (0 + j) delta this1 with
             | (Normal _, this2) => I (Datatypes.S j) this2
             | (Throw _, _) => False
             end).
  { intros j x this1 Hx (Hlook & Hshown & Hsome). simpl.
    unfold update_tile.
    assert (Hj : animatedTiles this1 !! j = Some x).
    { rewrite Hlook. by case_decide; [lia|]. }
    rewrite Hj.
    assert (Hxs : sound x) by (by eapply (Forall_lookup_1 _ _ _ _ Hsound)).
    destruct (update_sound delta x (layers this1) Hxs Hdelta)
      as (frame & Hup & Hdisp).
    rewrite Hup. split; [|split]; simpl.
    - intros k. destruct (decide (k = j)) as [->|Hne].
      + rewrite list_lookup_insert_eq by (by eapply lookup_lt_Some).
        case_decide; [|lia]. by rewrite Hx.
      + rewrite list_lookup_insert_ne by done. rewrite Hlook.
        repeat case_decide; try done; lia.
    - intros k a Hk Ha. destruct (decide (k = j)) as [->|Hne].
      + assert (a = x) as -> by congruence.
        apply Hdisp, Hsome. by eapply list_elem_of_lookup_2.
      + apply displays_other_tile; [|apply (Hshown k); [lia|done]].
        rewrite advance_tile. intros Heq. apply Hne.
        eapply (NoDup_lookup _ _ _ _ Hnodup).
        * by rewrite list_lookup_fmap, Ha.
        * rewrite list_lookup_fmap, Hx. simpl. by rewrite Heq.
    - intros a Ha. by apply set_tile_index_is_Some, Hsome. }
  pose proof (forEach_from_steps (fun _ => False)
                (fun _ i => update_tile i delta) ats I 0%nat this
                Hstart Hbody) as Hloop.
  unfold update, bind, gets. simpl. fold ats. unfold forEach.
  destruct (forEach_from 0 ats (fun _ i => update_tile i delta) this)
    as [[[]|err] this']; [|done].
  destruct Hloop as (Hlook & Hshown & Hsome).
  assert (Hats : animatedTiles this' = advance delta <$> ats).
  { apply list_eq. intros k. rewrite Hlook, list_lookup_fmap.
    case_decide as Hk; [done|].
    rewrite lookup_ge_None_2 by lia. done. }
  exists this'. split; [done|]. split; [done|]. split; [|split; [|split]].
  - rewrite Hats. apply Forall_fmap, Forall_lookup.
    intros k a Ha. apply (Hshown k); [|done].
    by eapply lookup_lt_Some.
  - rewrite Hats. apply Forall_fmap.
    eapply Forall_impl; [exact Hsound|]. intros a. apply advance_sound.
  - rewrite Hats, <- list_fmap_compose.
    erewrite list_fmap_ext; [exact Hnodup|].
    intros k a _. apply advance_tile.
  - rewrite Hats. apply Forall_fmap, Forall_forall. intros a Ha.
    simpl. rewrite advance_tile. by apply Hsome.
Qed.

(** A run of frames of a healthy scene. *)
Lemma frames_healthy deltas : forall i this,
  healthy this -> Forall (fun d => 0 <= d) deltas ->
  exists this',
    forEach_from i deltas (fun delta _ => update 0 delta) this =
      (Normal tt, this') /\
    animatedTiles this' = advance (total deltas) <$> animatedTiles this /\
    healthy this' /\
    (deltas <> [] ->
     Forall (AnimatedTile.displays (layers this')) (animatedTiles this')).
Proof.
  induction deltas as [|delta deltas IH]; intros i this Hh Hall.
  - exists this. split; [done|]. split; [|done].
    destruct Hh as (Hsound & _). symmetry.
    erewrite list_fmap_ext; [apply list_fmap_id|].
    intros k a Ha. simpl. apply advance_0.
    by eapply (Forall_lookup_1 _ _ _ _ Hsound).
  - apply Forall_cons in Hall as [Hdelta Hall].
    destruct (update_healthy 0 delta this Hh Hdelta)
      as (this1 & Hup & Hats1 & Hshown1 & Hh1).
    destruct (IH (Datatypes.S i) this1 Hh1 Hall)
      as (this2 & Hrun & Hats2 & Hh2 & Hshown2).
    exists this2. simpl. unfold bind. rewrite Hup.
    split; [done|]. split; [|split; [done|]].
    + rewrite Hats2, Hats1, <- list_fmap_compose.
      apply list_fmap_ext. intros k a Ha. simpl.
      change (total (delta :: deltas)) with (delta + total deltas).
      apply advance_advance.
      destruct Hh as (Hsound & _).
      by eapply (Forall_lookup_1 _ _ _ _ Hsound).
    + intros _. destruct deltas as [|d deltas]; [|by apply Hshown2].
      simpl in Hrun. injection Hrun as <-. done.
Qed.

(** The scene that the scan leaves, when every matched entry has a first
    frame of positive duration, is healthy, and its animated tiles have
    elapsed time 0. *)
Lemma create_healthy tileset this :
  matched_entries_positive tileset (layers this) ->
  let this1 := exec (init ;; create tileset) this in
  fst ((init ;; create tileset) this) = Normal tt /\
  healthy this1 /\
  Forall (fun a => AnimatedTile.elapsedTime a = Num 0) (animatedTiles this1).
Proof.
  intros Hpos this1.
  assert (Hwf : matched_entries_animated tileset (layers this)).
  { intros tileid0 entry r Hentry Hm.
    destruct (Hpos tileid0 entry r Hentry Hm) as (frame0 & rest & ? & _).
    eauto. }
  assert (Hls : layers this1 = layers this).
  { unfold this1, exec, bind, init, modify. simpl.
    destruct (create_inv tileset (set_animatedTiles this [])) as [Hls _].
    by unfold exec in Hls. }
  assert (Hscanned : forall a,
             a ∈ animatedTiles this1 ->
             AnimatedTile.elapsedTime a = Num 0 /\ sound a /\
             is_Some (get_tile (layers this) (AnimatedTile.tile a))).
  { intros a Ha. apply create_wraps_only_matching in Ha
      as (tileid0 & entry & frames & Hentry & Hanim & Hm & Hnew).
    destruct (Hpos tileid0 entry _ Hentry Hm)
      as (frame0 & rest & Hanim' & Hdur).
    assert (frames = frame0 :: rest) as -> by congruence.
    pose proof Hnew as (fs & frame0' & [= <-] & [= <-] & Ha)%new_Normal.
    split; [by rewrite Ha|]. split.
    - split.
      + exists (duration frame0), frame0. by rewrite Ha.
      + exists 0. rewrite Ha. simpl. split; [done|].
        assert (0 < Z.of_nat (Datatypes.S (length rest))) by lia. nia.
    - destruct Hm as (layer & tileRow & tile0 & Hl & _ & Hr & Hc & _).
      unfold get_tile. rewrite Hl, Hr, Hc. by eexists. }
  split; [by apply create_wraps_exactly|].
  split; [split; [|split]|].
  - apply Forall_forall. intros a Ha. by apply Hscanned.
  - by apply create_wraps_exactly.
  - apply Forall_forall. intros a Ha. rewrite Hls. by apply Hscanned.
  - apply Forall_forall. intros a Ha. by apply Hscanned.
Qed.

(** X14.  For whole milliseconds.  When the scan has returned and every
    matching tile shows a local tile whose entry has a first frame of
    positive duration, every frame of non-negative delta after it
    returns.  All animated tiles stay in step: each has, as elapsed time,
    the sum of the deltas modulo its total duration, and after the first
    frame each wrapped tile shows the frame of that elapsed time. *)
Theorem scene_stays_in_step tileset this deltas :
  fst ((init ;; create tileset) this) = Normal tt ->
  matched_entries_positive tileset (layers this) ->
  Forall (fun d => 0 <= d) deltas ->
  let this1 := exec (init ;; create tileset) this in
  let this2 := exec (frames deltas) this1 in
  fst (frames deltas this1) = Normal tt /\
  animatedTiles this2 =
    (fun a =>
       AnimatedTile.set_elapsedTime a
         (Num (total deltas mod AnimatedTile.animationDuration a)))
    <$> animatedTiles this1 /\
  (deltas <> [] ->
   Forall (AnimatedTile.displays (layers this2)) (animatedTiles this2)).
Proof.
  intros _ Hpos Hall this1 this2.
  destruct (create_healthy tileset this Hpos) as (_ & Hh & Hzero).
  fold this1 in Hh, Hzero.
  destruct (frames_healthy deltas 0%nat this1 Hh Hall)
    as (this' & Hrun & Hats & _ & Hshown).
  unfold this2, exec, frames, forEach. rewrite Hrun. simpl.
  split; [done|]. split; [|done].
  rewrite Hats. apply list_fmap_ext. intros k a Ha.
  unfold advance.
  by rewrite (Forall_lookup_1 _ _ _ _ Hzero Ha).
Qed.

Lemma scene_stays_in_step_witness :
  fst ((init ;; create Demo.tileset) Demo.scene) = Normal tt /\
  matched_entries_positive Demo.tileset (layers Demo.scene) /\
  Forall (fun d => 0 <= d) [150; 200] /\
  let this1 := exec (init ;; create Demo.tileset) Demo.scene in
  let this2 := exec (frames [150; 200]) this1 in
  fst (frames [150; 200] this1) = Normal tt /\
  animatedTiles this2 =
    (fun a =>
       AnimatedTile.set_elapsedTime a
         (Num (total [150; 200] mod AnimatedTile.animationDuration a)))
    <$> animatedTiles this1 /\
  ([150; 200] <> [] ->
   Forall (AnimatedTile.displays (layers this2)) (animatedTiles this2)).
Proof.
  assert (Hret : fst ((init ;; create Demo.tileset) Demo.scene) = Normal tt)
    by reflexivity.
  assert (Hpos : matched_entries_positive Demo.tileset (layers Demo.scene)).
  { intros tileid0 entry r Hentry _. unfold Demo.tileset in Hentry.
    simpl in Hentry. apply lookup_singleton_Some in Hentry as [_ <-].
    eexists _, _. split; reflexivity. }
  assert (Hall : Forall (fun d => 0 <= d) [150; 200])
    by (repeat constructor; intros H; discriminate H).
  split; [exact Hret|]. split; [exact Hpos|]. split; [exact Hall|].
  exact (scene_stays_in_step Demo.tileset Demo.scene [150; 200]
           Hret Hpos Hall).
Defined.

(** X15.  An animated tile of total duration 0 stops the pass of every
    frame: [update] throws, and the animated tiles after it in the list
    are left as they were, never updated. *)
Theorem zero_duration_blocks_later time delta this i a frame0 :
  animatedTiles this !! i = Some a ->
  AnimatedTile.tileAnimationData a !! 0%nat = Some frame0 ->
  AnimatedTile.animationDuration a = 0 ->
  fst (update time delta this) = Throw TypeError /\
  forall k,
    (i < k)%nat ->
    animatedTiles (exec (update time delta) this) !! k =
      animatedTiles this !! k.
Proof.
  intros Ha H0 HT.
  set (ats := animatedTiles this) in *.
  set (I := fun (j : nat) (this' : TilemapScene.t) =>
    (j <= i)%nat /\
    forall k, (j <= k)%nat -> animatedTiles this' !! k = ats !! k).
  set (Q := fun this' : TilemapScene.t =>
    forall k, (i < k)%nat -> animatedTiles this' !! k = ats !! k).
  assert (Hstart : I 0%nat this) by (split; [lia|done]).
  assert (Hbody : forall j x this1,
             ats !! j = Some x -> I j this1 ->
             match update_tile (0 + j) delta this1 with
             | (Normal _, this2) => I (Datatypes.S j) this2
             | (Throw _, this2) => Q this2
             end).
  { intros j x this1 Hx (Hj & Hlook). simpl. unfold update_tile.
    rewrite (Hlook j) by lia. rewrite Hx.
    destruct (decide (j = i)) as [->|Hne].
    - assert (x = a) as -> by congruence.
      rewrite (update_zero_duration a (layers this1) delta frame0 H0 HT).
      intros k Hk. simpl. rewrite list_lookup_insert_ne by lia.
      apply Hlook. lia.
    - destruct (AnimatedTile.update delta (x, layers this1))
        as [[[]|err] [x' ls']].
      + split; [lia|]. intros k Hk. simpl.
        rewrite list_lookup_insert_ne by lia. apply Hlook. lia.
      + intros k Hk. simpl. rewrite list_lookup_insert_ne by lia.
        apply Hlook. lia. }
  pose proof (forEach_from_steps Q (fun _ i => update_tile i delta) ats I
                0%nat this Hstart Hbody) as Hloop.
  unfold update, exec, bind, gets. simpl. fold ats. unfold forEach.
  destruct (forEach_from 0 ats (fun _ i => update_tile i delta) this)
    as [[[]|[]] this'].
  - destruct Hloop as [Hlen _]. apply lookup_lt_Some in Ha. lia.
  - done.
Qed.

Lemma zero_duration_blocks_later_witness :
  animatedTiles Sample.blocked_scene !! 0%nat = Some Sample.stuck /\
  AnimatedTile.tileAnimationData Sample.stuck !! 0%nat
    = Some {| duration := 0; tileid := 0 |} /\
  AnimatedTile.animationDuration Sample.stuck = 0 /\
  fst (update 0 16 Sample.blocked_scene) = Throw TypeError /\
  forall k,
    (0 < k)%nat ->
    animatedTiles (exec (update 0 16) Sample.blocked_scene) !! k =
      animatedTiles Sample.blocked_scene !! k.
Proof.
  assert (Ha : animatedTiles Sample.blocked_scene !! 0%nat
               = Some Sample.stuck) by reflexivity.
  assert (H0 : AnimatedTile.tileAnimationData Sample.stuck !! 0%nat
               = Some {| duration := 0; tileid := 0 |}) by reflexivity.
  assert (HT : AnimatedTile.animationDuration Sample.stuck = 0)
    by reflexivity.
  repeat (split; [assumption|]).
  exact (zero_duration_blocks_later 0 16 Sample.blocked_scene 0%nat
           Sample.stuck {| duration := 0; tileid := 0 |} Ha H0 HT).
Defined.

(** The frame that a tile shows for an animated tile does not depend on
    the rest of the grid. *)
Lemma displays_same_index ls ls' a :
  AnimatedTile.displays ls a -> AnimatedTile.displays ls' a ->
  get_tile ls (AnimatedTile.tile a) = get_tile ls' (AnimatedTile.tile a).
Proof.
  intros (D & e & frame & (f0 & H0 & HD & _) & He & Hat & Hget)
         (D' & e' & frame' & (f0' & H0' & HD' & _) & He' & Hat' & Hget').
  assert (f0' = f0) as -> by congruence.
  assert (D' = D) as -> by congruence.
  assert (e' = e) as -> by congruence.
  assert (frame' = frame) as -> by congruence.
  by rewrite Hget, Hget'.
Qed.

Lemma healthy_Permutation this this' :
  healthy this ->
  animatedTiles this' ≡ₚ animatedTiles this ->
  layers this' = layers this ->
  healthy this'.
Proof.
  intros (Hsound & Hnodup & Hvalid) Hperm Hls. split; [|split].
  - by rewrite Hperm.
  - by rewrite Hperm.
  - rewrite Hperm, Hls. done.
Qed.

(** X16.  In a healthy scene the order of the animated tiles does not
    matter to a frame: with the list in any other order, [update] leaves
    every tile of the grid with the same index and the same animated
    tiles. *)
Theorem frame_order_insensitive time delta this this' :
  healthy this ->
  animatedTiles this' ≡ₚ animatedTiles this ->
  layers this' = layers this ->
  0 <= delta ->
  animatedTiles (exec (update time delta) this') ≡ₚ
    animatedTiles (exec (update time delta) this) /\
  forall r,
    get_tile (layers (exec (update time delta) this')) r =
    get_tile (layers (exec (update time delta) this)) r.
Proof.
  intros Hh Hperm Hls Hdelta.
  pose proof (healthy_Permutation this this' Hh Hperm Hls) as Hh'.
  destruct (update_healthy time delta this Hh Hdelta)
    as (this1 & Hup & Hats & Hshown & _).
  destruct (update_healthy time delta this' Hh' Hdelta)
    as (this1' & Hup' & Hats' & Hshown' & _).
  split.
  - unfold exec. rewrite Hup, Hup'. simpl. by rewrite Hats, Hats', Hperm.
  - intros r.
    destruct (decide (r ∈ AnimatedTile.tile <$> animatedTiles this))
      as [Hin|Hout].
    + apply list_elem_of_fmap in Hin as (a & -> & Ha).
      unfold exec. rewrite Hup, Hup'. simpl.
      rewrite <- (advance_tile delta a).
      apply displays_same_index.
      * apply (proj1 (Forall_forall _ _) Hshown'). rewrite Hats'.
        apply list_elem_of_fmap. exists a. by rewrite Hperm.
      * apply (proj1 (Forall_forall _ _) Hshown). rewrite Hats.
        apply list_elem_of_fmap. by exists a.
    + destruct (update_other_tiles time delta this r Hout) as [_ ->].
      destruct (update_other_tiles time delta this' r) as [_ ->];
        [by rewrite Hperm|].
      by rewrite Hls.
Qed.

Lemma frame_order_insensitive_witness :
  healthy Sample.pair_scanned /\
  animatedTiles Sample.pair_reversed ≡ₚ animatedTiles Sample.pair_scanned /\
  layers Sample.pair_reversed = layers Sample.pair_scanned /\
  0 <= 150 /\
  animatedTiles (exec (update 0 150) Sample.pair_reversed) ≡ₚ
    animatedTiles (exec (update 0 150) Sample.pair_scanned) /\
  forall r,
    get_tile (layers (exec (update 0 150) Sample.pair_reversed)) r =
    get_tile (layers (exec (update 0 150) Sample.pair_scanned)) r.
Proof.
  assert (Hh : healthy Sample.pair_scanned).
  { apply (create_healthy Demo.tileset Sample.pair_scene).
    intros tileid0 entry r Hentry _. unfold Demo.tileset in Hentry.
    simpl in Hentry. apply lookup_singleton_Some in Hentry as [_ <-].
    eexists _, _. split; reflexivity. }
  assert (Hperm : animatedTiles Sample.pair_reversed ≡ₚ
                  animatedTiles Sample.pair_scanned)
    by apply reverse_Permutation.
  assert (Hls : layers Sample.pair_reversed = layers Sample.pair_scanned)
    by reflexivity.
  assert (Hdelta : 0 <= 150) by (intros H; discriminate H).
  repeat (split; [assumption|]).
  exact (frame_order_insensitive 0 150 Sample.pair_scanned
           Sample.pair_reversed Hh Hperm Hls Hdelta).
Defined.

End in_step.

(** ** AnimatedTile on doubles: where whole milliseconds matter *)

Section doubles.
Import Binary64.

(** On whole milliseconds the update on doubles and the update on
    integers agree: the same completion, the same elapsed time, the same
    index shown; checked for the animation of [Demo.water] at every
    elapsed time of its cycle, for the deltas of either sign around a
    frame at sixty a second. *)
Lemma whole_milliseconds_agree e delta :
  0 <= e < 300 -> -9 <= delta < 18 ->
  Replay.agree_at e delta = true.
Proof.
  intros He Hdelta.
  assert (Hall : forallb (fun e' =>
                    forallb (Replay.agree_at e') (seqZ (-9) 27))
                         (seqZ 0 300) = true)
    by (vm_compute; reflexivity).
  rewrite forallb_forall in Hall.
  assert (Hin : In e (seqZ 0 300))
    by (apply list_elem_of_In, elem_of_seqZ; lia).
  specialize (Hall e Hin). rewrite forallb_forall in Hall.
  apply Hall, list_elem_of_In, elem_of_seqZ. lia.
Qed.

(** C3 as claimed fails on doubles.  At sixty frames a second, after ten
    frames, two more updates of 1000/60 ms leave the elapsed time just
    under 200 and the tile on index 2, while one update of twice that
    delta leaves 200 and the tile on index 3. *)
Lemma sixty_hertz_additivity_fails :
  let d := Replay.sixtieth in
  let ls := TilemapScene.layers Demo.scene in
  SFltb (of_Z 0) d = true /\
  AnimatedTile64.new Demo.origin (Some Demo.water) 1 = Normal Replay.fresh /\
  fst (AnimatedTile64.updates (replicate 10 d) (Replay.fresh, ls))
    = Normal tt /\
  index <$> get_tile
    (snd (exec (AnimatedTile64.update d ;; AnimatedTile64.update d)
            (Replay.after 10))) Demo.origin = Some 2 /\
  index <$> get_tile
    (snd (exec (AnimatedTile64.update (add d d)) (Replay.after 10)))
    Demo.origin = Some 3.
Proof. vm_compute. repeat split; reflexivity. Qed.

(** C4 as claimed fails on doubles.  After twelve frames of 1000/60 ms
    the elapsed time is just under 200 and the tile shows index 2; one
    update of the whole cycle, 300 ms, leaves 200 and the tile on
    index 3. *)
Lemma sixty_hertz_full_cycle_moves :
  let d := Replay.sixtieth in
  let ls := TilemapScene.layers Demo.scene in
  AnimatedTile64.new Demo.origin (Some Demo.water) 1 = Normal Replay.fresh /\
  fst (AnimatedTile64.updates (replicate 12 d) (Replay.fresh, ls))
    = Normal tt /\
  mul (of_Z 100) (of_Z 3) = of_Z 300 /\
  index <$> get_tile (snd (Replay.after 12)) Demo.origin = Some 2 /\
  SFltb (AnimatedTile64.elapsedTime (fst (Replay.after 12))) (of_Z 200)
    = true /\
  AnimatedTile64.elapsedTime
    (fst (exec (AnimatedTile64.update (of_Z 300)) (Replay.after 12)))
    = of_Z 200 /\
  index <$> get_tile
    (snd (exec (AnimatedTile64.update (of_Z 300)) (Replay.after 12)))
    Demo.origin = Some 3.
Proof. vm_compute. repeat split; reflexivity. Qed.

End doubles.
